(** * Campus landing page: typewriter engine and intro sequencer

    A shallow embedding of the algorithmic core of [src/App.tsx]:

    - [simulateTypewriter], the pure slice helper;
    - the [Typewriter] component: its render function, its periodic tick
      handler, its hold timeout and its one-shot lifecycle callbacks;
    - the intro timers of [CampusLanding], its three state cells and what
      it renders from them;
    - the utilities [cx], [useInterval] and [useHandwrittenFont].

    JavaScript numbers that hold counts and indices are modelled as [Z];
    durations in milliseconds as [Q], so that [speed * 0.5] is exact; the
    timers of the host count a delay in whole milliseconds
    ([JS.timerDelay]).
    Strings are Rocq strings read as sequences of code units.  A React
    component is modelled by its render function (which may throw), its
    event handlers (state transformers) and the effects run after every
    commit. *)

From Stdlib Require Import ZArith QArith String List Bool Lia.
Import ListNotations.

Local Open Scope string_scope.
Local Open Scope Z_scope.

(** ** JavaScript primitives used by the page *)

Module JS.

(** [word.length] *)
Definition strlen (w : string) : Z := Z.of_nat (String.length w).

(** [String.prototype.slice(start, end)] on integer arguments: a negative
    bound counts from the end, bounds are clamped to the string, and an
    empty range gives the empty string. *)
Definition slice (w : string) (start stop : Z) : string :=
  let len := strlen w in
  let from := if start <? 0 then Z.max (len + start) 0 else Z.min start len in
  let to := if stop <? 0 then Z.max (len + stop) 0 else Z.min stop len in
  if to <=? from then EmptyString
  else substring (Z.to_nat from) (Z.to_nat (to - from)) w.

(** [a % b] on integers: the remainder has the sign of the dividend, and
    a zero divisor gives [NaN], here [None]. *)
Definition rem (a b : Z) : option Z :=
  if b =? 0 then None else Some (Z.rem a b).

(** [arr[k]]: [undefined] (here [None]) when [k] is [NaN] or no index of
    the array. *)
Definition get {A : Type} (arr : list A) (k : option Z) : option A :=
  match k with
  | None => None
  | Some i => if i <? 0 then None else nth_error arr (Z.to_nat i)
  end.

(** Exceptions a render or a handler can raise. *)
Inductive Exn : Type :=
| TypeError.   (* reading a property of [undefined] *)

Definition Result (A : Type) : Type := (Exn + A)%type.

Definition ok {A : Type} (a : A) : Result A := inr a.
Definition throw {A : Type} (e : Exn) : Result A := inl e.

Definition bind {A B : Type} (m : Result A) (k : A -> Result B) : Result B :=
  match m with
  | inl e => inl e
  | inr a => k a
  end.

(** [x.length] where [x] may be [undefined]. *)
Definition lengthOf (x : option string) : Result Z :=
  match x with
  | Some w => ok (strlen w)
  | None => throw TypeError
  end.

(** [cb?.()]: an absent callback is skipped. *)
Definition optCall {W : Type} (cb : option (W -> W)) (w : W) : W :=
  match cb with
  | Some f => f w
  | None => w
  end.

(** The delay argument of [setTimeout] and [setInterval] is a [long]: the
    host drops the fraction of the number it is given and keeps the rest
    as a signed 32-bit integer. *)
Definition toInt32 (d : Q) : Z :=
  let n := Z.quot (Qnum d) (Z.pos (Qden d)) in
  (n + 2 ^ 31) mod 2 ^ 32 - 2 ^ 31.

(** The milliseconds a timer armed with delay [d] waits: the delay as a
    [long], a negative one counting as 0. *)
Definition timerDelay (d : Q) : Q := inject_Z (Z.max (toInt32 d) 0).

End JS.

Arguments JS.timerDelay : simpl never.

Notation "x <- m ;; k" := (JS.bind m (fun x => k))
  (at level 61, m at next level, right associativity).

(** ** The pure slice helper *)

(** [simulateTypewriter(word, steps)] *)
Definition simulateTypewriter (word : string) (steps : Z) : string :=
  let s := Z.min (Z.max steps 0) (JS.strlen word) in
  JS.slice word 0 s.

(** The words of the specification: [clamp] and the prefix [w[0 : n]]. *)
Definition clamp (s lo hi : Z) : Z :=
  if s <? lo then lo else if hi <? s then hi else s.

Fixpoint prefix (n : nat) (w : string) : string :=
  match n, w with
  | S n', String c r => String c (prefix n' r)
  | _, _ => EmptyString
  end.

(** ** The Typewriter component *)

(** [dir]: ["fwd"] while characters are added, ["back"] while they are
    erased. *)
Inductive Dir : Type := fwd | back.

(** The five [useState] cells of the component. *)
Record State : Type := mkState {
  index : Z;
  sub : Z;
  dir : Dir;
  hasTypedOnce : bool;
  firstWordDone : bool
}.

Definition setIndex (i : Z) (st : State) : State :=
  mkState i (sub st) (dir st) (hasTypedOnce st) (firstWordDone st).
Definition setSub (n : Z) (st : State) : State :=
  mkState (index st) n (dir st) (hasTypedOnce st) (firstWordDone st).
Definition setDir (d : Dir) (st : State) : State :=
  mkState (index st) (sub st) d (hasTypedOnce st) (firstWordDone st).
Definition setHasTypedOnce (b : bool) (st : State) : State :=
  mkState (index st) (sub st) (dir st) b (firstWordDone st).
Definition setFirstWordDone (b : bool) (st : State) : State :=
  mkState (index st) (sub st) (dir st) (hasTypedOnce st) b.

(** The initial values passed to [useState]. *)
Definition initial : State := mkState 0 0 fwd false false.

Definition Dir_eqb (a b : Dir) : bool :=
  match a, b with
  | fwd, fwd | back, back => true
  | _, _ => false
  end.

(** The two timer events of a mounted component: a firing of the interval
    of [useInterval], and the firing of the hold timeout. *)
Inductive Event : Type := Tick | Hold.

(** What a render hands to React: the text shown, the delay passed to
    [useInterval], and the dependency array of the hold effect
    [[dir, sub, current.length, hold]]. *)
Record View : Type := mkView {
  text : string;
  delay : Q;
  holdDeps : Dir * Z * Z * Q
}.

(** The delay expression [dir === "fwd" ? speed : speed * 0.5]. *)
Definition tickDelay (d : Dir) (speed : Q) : Q :=
  match d with
  | fwd => speed
  | back => (speed * (1 # 2))%Q
  end.

(** The condition of the hold effect, read off its dependencies:
    [dir === "fwd" && sub === current.length]. *)
Definition holdWanted (v : View) : bool :=
  let '(d, s, len, _) := holdDeps v in
  match d with
  | fwd => s =? len
  | back => false
  end.

Definition depsEqb (a b : Dir * Z * Z * Q) : bool :=
  let '(d1, s1, l1, h1) := a in
  let '(d2, s2, l2, h2) := b in
  Dir_eqb d1 d2 && (s1 =? s2) && (l1 =? l2) && Qeq_bool h1 h2.

Section Typewriter.

(** The state of the caller, on which the two callbacks act. *)
Context {W : Type}.

Record Props : Type := mkProps {
  words : list string;
  speed : Q;
  hold : Q;
  onFirstKeystroke : option (W -> W);
  onFirstWordComplete : option (W -> W)
}.

(** [words[index % words.length]] *)
Definition current (p : Props) (st : State) : option string :=
  JS.get (words p) (JS.rem (index st) (Z.of_nat (List.length (words p)))).

(** The body of the component up to its [return]: the hooks register
    closures, the dependency array of the hold effect reads
    [current.length], and the markup reads [current.slice(0, sub)]. *)
Definition render (p : Props) (st : State) : JS.Result View :=
  let d := tickDelay (dir st) (speed p) in
  len <- JS.lengthOf (current p st) ;;
  match current p st with
  | Some c => JS.ok (mkView (JS.slice c 0 (sub st)) d
                            (dir st, sub st, len, hold p))
  | None => JS.throw JS.TypeError
  end.

(** The callback given to [useInterval].  It reads [dir], [sub],
    [current], [firstWordDone] and [index] of the last render; every
    update it requests is applied before the next timer event. *)
Definition onTick (p : Props) (s : State * W) : JS.Result (State * W) :=
  let (st, w) := s in
  match dir st with
  | fwd =>
      len <- JS.lengthOf (current p st) ;;
      if sub st <? len then JS.ok (setSub (sub st + 1) st, w)
      else
        let s1 :=
          if negb (firstWordDone st) && (index st =? 0)
          then (setFirstWordDone true st,
                JS.optCall (onFirstWordComplete p) w)
          else (st, w) in
        JS.ok (setDir back (fst s1), snd s1)
  | back =>
      if 0 <? sub st then JS.ok (setSub (sub st - 1) st, w)
      else JS.ok (setIndex (index st + 1) (setDir fwd st), w)
  end.

(** The callback of the hold timeout: [setDir("back")]. *)
Definition onHold (s : State * W) : State * W :=
  (setDir back (fst s), snd s).

(** The first effect of the component, run after a commit:
    [if (!hasTypedOnce && sub > 0) { setHasTypedOnce(true);
    onFirstKeystroke?.(); }] *)
Definition firstKeystrokeEffect (p : Props) (s : State * W) : State * W :=
  let (st, w) := s in
  if negb (hasTypedOnce st) && (0 <? sub st)
  then (setHasTypedOnce true st, JS.optCall (onFirstKeystroke p) w)
  else s.

(** The first render and commit. *)
Definition mount (p : Props) (w : W) : JS.Result (State * W) :=
  _ <- render p initial ;;
  JS.ok (firstKeystrokeEffect p (initial, w)).

(** A hold timeout is pending exactly while the condition of the hold
    effect holds: the effect clears its timer whenever a dependency
    changes. *)
Definition holdArmed (p : Props) (st : State) : JS.Result bool :=
  v <- render p st ;; JS.ok (holdWanted v).

(** One timer event: the handler, the re-render, the effects.  A cleared
    hold timeout does not fire. *)
Definition step (p : Props) (ev : Event) (s : State * W)
  : JS.Result (State * W) :=
  s1 <- match ev with
        | Tick => onTick p s
        | Hold => armed <- holdArmed p (fst s) ;;
                  JS.ok (if armed then onHold s else s)
        end ;;
  _ <- render p (fst s1) ;;
  JS.ok (firstKeystrokeEffect p s1).

Fixpoint run (p : Props) (evs : list Event) (s : State * W)
  : JS.Result (State * W) :=
  match evs with
  | [] => JS.ok s
  | ev :: rest => s' <- step p ev s ;; run p rest s'
  end.

(** The component from its mount through a sequence of timer events. *)
Definition engine (p : Props) (w : W) (evs : list Event)
  : JS.Result (State * W) :=
  s <- mount p w ;; run p evs s.

(** *** The component under a virtual clock

    [nextTick] is the time at which the interval fires next and [holdAt]
    the time at which the pending hold timeout fires, if there is one. *)
Record Timed : Type := mkTimed {
  eng : State;
  world : W;
  now : Q;
  nextTick : Q;
  holdAt : option Q
}.

Definition mountT (p : Props) (w : W) : JS.Result Timed :=
  s <- mount p w ;;
  v <- render p (fst s) ;;
  JS.ok (mkTimed (fst s) (snd s) 0 (0 + JS.timerDelay (delay v))%Q
                 (if holdWanted v then Some (0 + JS.timerDelay (hold p))%Q
                  else None)).

(** The timer that is due first; the interval, armed earlier, goes first
    when both are due at the same time. *)
Definition nextEvent (t : Timed) : Event * Q :=
  match holdAt t with
  | Some h => if Qle_bool (nextTick t) h then (Tick, nextTick t)
              else (Hold, h)
  | None => (Tick, nextTick t)
  end.

(** One timer event under the clock.  [useInterval] restarts its interval
    when the delay has changed; the hold effect clears its timeout and
    runs again when one of its dependencies has changed.  A timer waits
    the whole milliseconds of its delay, [JS.timerDelay]. *)
Definition stepT (p : Props) (t : Timed) : JS.Result Timed :=
  let (ev, at_) := nextEvent t in
  v0 <- render p (eng t) ;;
  s1 <- match ev with
        | Tick => onTick p (eng t, world t)
        | Hold => JS.ok (onHold (eng t, world t))
        end ;;
  v1 <- render p (fst s1) ;;
  let s2 := firstKeystrokeEffect p s1 in
  JS.ok (mkTimed (fst s2) (snd s2) at_
           (if Qeq_bool (delay v0) (delay v1)
            then match ev with
                 | Tick => (at_ + JS.timerDelay (delay v1))%Q
                 | Hold => nextTick t
                 end
            else (at_ + JS.timerDelay (delay v1))%Q)
           (if depsEqb (holdDeps v0) (holdDeps v1)
            then match ev with
                 | Tick => holdAt t
                 | Hold => None
                 end
            else if holdWanted v1
                 then Some (at_ + JS.timerDelay (hold p))%Q else None)).

Fixpoint runT (p : Props) (n : nat) (t : Timed) : JS.Result Timed :=
  match n with
  | O => JS.ok t
  | S n' => t' <- stepT p t ;; runT p n' t'
  end.

(** The events that fire during the first [n] steps, in order. *)
Fixpoint traceT (p : Props) (n : nat) (t : Timed) : list Event :=
  match n with
  | O => []
  | S n' => fst (nextEvent t)
            :: match stepT p t with
               | inr t' => traceT p n' t'
               | inl _ => []
               end
  end.

End Typewriter.

Arguments Props : clear implicits.
Arguments Timed : clear implicits.

Definition ticks (n : nat) : list Event := repeat Tick n.

(** *** Observing the callbacks

    A caller that records every invocation, in order. *)
Inductive Notification : Type := FirstKeystroke | FirstWordComplete.

Definition record (n : Notification)
  : option (list Notification -> list Notification) :=
  Some (fun log => (log ++ [n])%list).

Definition recording (ws : list string) (speed hold : Q)
  : Props (list Notification) :=
  mkProps ws speed hold (record FirstKeystroke) (record FirstWordComplete).

Definition Notification_eqb (a b : Notification) : bool :=
  match a, b with
  | FirstKeystroke, FirstKeystroke
  | FirstWordComplete, FirstWordComplete => true
  | _, _ => false
  end.

Definition fired (n : Notification) (log : list Notification) : nat :=
  List.length (filter (Notification_eqb n) log).

(** The same component with both callbacks left out. *)
Definition withoutCallbacks {W : Type} (p : Props W) : Props W :=
  mkProps (words p) (speed p) (hold p) None None.

(** The component state reached, without the caller's state. *)
Definition stateOf {W : Type} (r : JS.Result (State * W)) : JS.Result State :=
  match r with
  | inl e => inl e
  | inr s => inr (fst s)
  end.

(** *** Invariants

    The bounds of the data model: the index is a natural number, the
    active word exists, and [sub] lies within it. *)
Definition Bounded {W : Type} (p : Props W) (st : State) : Prop :=
  0 <= index st /\
  exists c, current p st = Some c /\ 0 <= sub st <= JS.strlen c.

(** A pending hold timeout was armed by the state it is pending in. *)
Definition TimerSound {W : Type} (p : Props W) (t : Timed W) : Prop :=
  forall h, holdAt t = Some h -> holdArmed p (eng t) = inr true.

(** *** The state machine of the specification

    The triple [(wordIndex, visibleLength, direction)] and its transition
    on a tick, as the specification words it; the component is related to
    it by [step_tick_core] below. *)
Definition Core : Type := (Z * Z * Dir)%type.

Definition core (st : State) : Core := (index st, sub st, dir st).

(** The length of the active word, the index being read modulo the length
    of the list. *)
Definition activeLength (ws : list string) (i : Z) : Z :=
  match JS.get ws (JS.rem i (Z.of_nat (List.length ws))) with
  | Some c => JS.strlen c
  | None => 0
  end.

Definition specTick (ws : list string) (x : Core) : Core :=
  let '(i, s, d) := x in
  match d with
  | fwd => if s <? activeLength ws i then (i, s + 1, fwd) else (i, s, back)
  | back => if 0 <? s then (i, s - 1, back) else (i + 1, 0, fwd)
  end.

(** The ticks of one pass over the list: each word is typed, turned,
    erased and left. *)
Definition cycleTicks (ws : list string) : nat :=
  fold_right (fun w n => (2 * String.length w + 2 + n)%nat) 0%nat ws.

(** The page mounts the component with [speed={300}] and [hold={2000}]
    over its four words, and the component's own defaults are
    [speed = 90], [hold = 1200]. *)
Definition pageWords : list string := ["feed"; "events"; "story"; "lore"].

Definition pageProps : Props (list Notification) :=
  recording pageWords 300 2000.

(** The component [n] timer events after its mount, under the clock. *)
Definition clock {W : Type} (p : Props W) (w : W) (n : nat)
  : JS.Result (Timed W) :=
  t <- mountT p w ;; runT p n t.

Definition b2n (b : bool) : nat := if b then 1%nat else 0%nat.

(** The log of a recording caller agrees with the two flags. *)
Definition Counted (st : State) (log : list Notification) : Prop :=
  fired FirstKeystroke log = b2n (hasTypedOnce st)
  /\ fired FirstWordComplete log = b2n (firstWordDone st).

(** The first word can no longer be reported: its completion was not
    recorded, and it is being erased or has been left. *)
Definition Lost (st : State) : Prop :=
  firstWordDone st = false
  /\ 0 <= index st
  /\ (1 <= index st \/ dir st = back).

(** The completion of the first word has been reported, or the first word
    is still being typed. *)
Definition Reported (st : State) : Prop :=
  firstWordDone st = true \/ (index st = 0 /\ dir st = fwd).

(** A visible character has been reported. *)
Definition Typed (st : State) : Prop :=
  0 < sub st -> hasTypedOnce st = true.

(** Nothing is left to report: the first word has been left, and the first
    keystroke has been reported or no word has a character to show. *)
Definition Settled {W : Type} (p : Props W) (st : State) : Prop :=
  1 <= index st
  /\ (hasTypedOnce st = true
      \/ forall c, In c (words p) -> JS.strlen c = 0).

(** While the first word is still being typed its completion has not been
    reported. *)
Definition NotYet (st : State) : Prop :=
  index st = 0 -> dir st = fwd -> firstWordDone st = false.

(** The first word is being erased or has been left, on the triple. *)
Definition Past (x : Core) : Prop :=
  let '(i, _, d) := x in 0 <= i /\ (1 <= i \/ d = back).

(** The interval is due no later than a pending hold timeout. *)
Definition TickFirst {W : Type} (t : Timed W) : Prop :=
  forall h, holdAt t = Some h -> (nextTick t <= h)%Q.

(** The interval is due one delay of the current direction after the last
    event. *)
Definition Due {W : Type} (p : Props W) (t : Timed W) : Prop :=
  nextTick t
  = (now t + JS.timerDelay (tickDelay (dir (eng t)) (speed p)))%Q.

(** A hold timeout wanted by the state is pending, one [hold] after the
    last event. *)
Definition TimerDue {W : Type} (p : Props W) (t : Timed W) : Prop :=
  holdArmed p (eng t) = inr true
  -> holdAt t = Some (now t + JS.timerDelay (hold p))%Q.

(** A delay that every host takes as it is: a whole number of
    milliseconds that fits a [long], and not below the 4 ms to which
    browsers stretch the shorter delays of repeating timers. *)
Definition wholeMs (d : Q) : Prop :=
  exists n : Z, 4 <= n < 2 ^ 31 /\ (d == inject_Z n)%Q.

(** The three delays the component hands to its timers are such delays. *)
Definition WholeDelays {W : Type} (p : Props W) : Prop :=
  wholeMs (tickDelay fwd (speed p))
  /\ wholeMs (tickDelay back (speed p))
  /\ wholeMs (hold p).

(** The time [n] ticks take from the triple [x]: each tick comes one delay
    of the direction it starts in after the one before. *)
Fixpoint elapsedFrom (ws : list string) (speed : Q) (x : Core) (n : nat) : Q :=
  match n with
  | O => 0
  | S k => (elapsedFrom ws speed x k
            + tickDelay (snd (Nat.iter k (specTick ws) x)) speed)%Q
  end.

Definition elapsed (ws : list string) (speed : Q) (n : nat) : Q :=
  elapsedFrom ws speed (0, 0, fwd) n.

(** The characters of a list of words. *)
Definition totalLength (ws : list string) : nat :=
  fold_right (fun w n => (String.length w + n)%nat) 0%nat ws.

(** ** The intro timers of the page *)

(** [phase]: ["whatif"], then ["dots"], then ["typing"]. *)
Inductive Phase : Type := whatif | dots | typing.

Definition Phase_rank (ph : Phase) : Z :=
  match ph with
  | whatif => 0
  | dots => 1
  | typing => 2
  end.

(** A pending [setTimeout(() => setPhase(sets), due)]. *)
Record Timeout : Type := mkTimeout {
  due : Z;
  sets : Phase
}.

(** [window.setTimeout]: pending timeouts fire in the order of their due
    times, and in the order of their creation when due together. *)
Fixpoint schedule (t : Timeout) (queue : list Timeout) : list Timeout :=
  match queue with
  | [] => [t]
  | u :: rest => if due t <? due u then t :: queue
                 else u :: schedule t rest
  end.

(** The intro effect, run once at the mount (time 0): [t1] then [t2]. *)
Definition introTimers (firstDelay secondDelay : Z) : list Timeout :=
  schedule (mkTimeout secondDelay typing)
           (schedule (mkTimeout firstDelay dots) []).

(** The phase at time [t]: every timeout due by then has fired, in queue
    order, each setting the phase. *)
Definition phaseAfter (queue : list Timeout) (t : Z) : Phase :=
  fold_left (fun ph u => if due u <=? t then sets u else ph) queue whatif.

Definition introPhase (firstDelay secondDelay t : Z) : Phase :=
  phaseAfter (introTimers firstDelay secondDelay) t.

(** The delays of the page. *)
Definition pagePhase (t : Z) : Phase := introPhase 1200 2200 t.

(** ** Small utilities *)

(** A value of [string | false | null | undefined], the arguments of
    [cx]. *)
Inductive ClassValue : Type :=
| ClassName (s : string)
| ClassFalse
| ClassNull
| ClassUndefined.

(** [Boolean(v)]: of these values only a non-empty string is truthy. *)
Definition truthy (v : ClassValue) : bool :=
  match v with
  | ClassName (String _ _) => true
  | _ => false
  end.

(** What [join] writes for an element: nothing for [null] and
    [undefined], its [String(v)] otherwise. *)
Definition joinText (v : ClassValue) : string :=
  match v with
  | ClassName s => s
  | ClassFalse => "false"
  | ClassNull | ClassUndefined => EmptyString
  end.

(** [classes.filter(Boolean).join(" ")] *)
Definition cx (classes : list ClassValue) : string :=
  String.concat " " (map joinText (filter truthy classes)).

(** *** The font injector

    An element as far as the injector reads and writes it; an empty [id]
    attribute gives no ID. *)
Record Element : Type := mkElement {
  tagName : string;
  elemId : string;
  rel : string;
  href : string
}.

(** The document: the children of [head], to which the injector appends,
    and its other elements. *)
Record Document : Type := mkDocument {
  headChildren : list Element;
  otherElements : list Element
}.

(** [document.getElementById(id)]; no element has the empty ID. *)
Definition getElementById (d : Document) (id : string) : option Element :=
  match id with
  | EmptyString => None
  | _ => find (fun e => String.eqb (elemId e) id)
              (headChildren d ++ otherElements d)
  end.

(** The element built by [add]:
    [createElement("link")], [id], [rel = "stylesheet"], [href]. *)
Definition stylesheetLink (id url : string) : Element :=
  mkElement "link" id "stylesheet" url.

(** [add(id, href)]: append the link to [head] unless the ID is taken. *)
Definition add (id url : string) (d : Document) : Document :=
  match getElementById d id with
  | None => mkDocument (headChildren d ++ [stylesheetLink id url])
                       (otherElements d)
  | Some _ => d
  end.

Definition patrickHandId : string := "font-patrick-hand".
Definition patrickHandUrl : string :=
  "https://fonts.googleapis.com/css2?family=Patrick+Hand&display=swap".
Definition gloriaId : string := "font-gloria".
Definition gloriaUrl : string :=
  "https://fonts.googleapis.com/css2?family=Gloria+Hallelujah&display=swap".

(** The effect of [useHandwrittenFont]. *)
Definition useHandwrittenFont (d : Document) : Document :=
  add gloriaId gloriaUrl (add patrickHandId patrickHandUrl d).

(** The elements that carry the ID [id]. *)
Definition withId (id : string) (d : Document) : list Element :=
  filter (fun e => String.eqb (elemId e) id)
         (headChildren d ++ otherElements d).

(** *** [useInterval]

    The hook between two commits: the callback in [saved.current], the
    delay the interval effect last ran with, and the running interval, if
    any, as the delay it was armed with and the time it fires next. *)
Section UseInterval.

Context {A : Type}.

Record IntervalHook : Type := mkIntervalHook {
  saved : A;
  delayDep : option Q;
  interval : option (Q * Q)
}.

(** The dependency check of the interval effect on [[delay]], [None]
    being [null]. *)
Definition sameDelay (a b : option Q) : bool :=
  match a, b with
  | None, None => true
  | Some x, Some y => Qeq_bool x y
  | _, _ => false
  end.

(** The body of the interval effect, run at time [at_]:
    [if (delay === null) return; setInterval(..., delay)]. *)
Definition armInterval (delay : option Q) (at_ : Q) : option (Q * Q) :=
  match delay with
  | None => None
  | Some d => Some (d, (at_ + JS.timerDelay d)%Q)
  end.

(** The first commit. *)
Definition mountInterval (cb : A) (delay : option Q) (at_ : Q)
  : IntervalHook :=
  mkIntervalHook cb delay (armInterval delay at_).

(** A later commit: [saved.current = cb]; the interval is cleared and
    armed again only if the delay has changed. *)
Definition renderInterval (cb : A) (delay : option Q) (at_ : Q)
           (h : IntervalHook) : IntervalHook :=
  mkIntervalHook cb delay
    (if sameDelay (delayDep h) delay then interval h
     else armInterval delay at_).

(** The interval fires: it calls [saved.current] and is due again after
    the milliseconds of its delay. *)
Definition fireInterval (h : IntervalHook) : option (A * IntervalHook) :=
  match interval h with
  | None => None
  | Some (d, due_) =>
      Some (saved h,
            mkIntervalHook (saved h) (delayDep h)
              (Some (d, (due_ + JS.timerDelay d)%Q)))
  end.

(** What happens to a mounted hook: a commit, or a firing (which does
    nothing when no interval runs). *)
Inductive HookEvent : Type :=
| Commit (cb : A) (delay : option Q) (at_ : Q)
| Fire.

Definition hookStep (h : IntervalHook) (ev : HookEvent) : IntervalHook :=
  match ev with
  | Commit cb delay at_ => renderInterval cb delay at_ h
  | Fire => match fireInterval h with
            | Some (_, h') => h'
            | None => h
            end
  end.

(** The callback and the delay of the latest commit. *)
Fixpoint latest (cb : A) (delay : option Q) (evs : list HookEvent)
  : A * option Q :=
  match evs with
  | [] => (cb, delay)
  | Commit cb' delay' _ :: rest => latest cb' delay' rest
  | Fire :: rest => latest cb delay rest
  end.

(** The running interval was armed with the delay last committed. *)
Definition Periodic (h : IntervalHook) : Prop :=
  match interval h, delayDep h with
  | Some (d, _), Some d' => (d == d')%Q
  | None, None => True
  | _, _ => False
  end.

End UseInterval.

Arguments IntervalHook : clear implicits.
Arguments HookEvent : clear implicits.

(** ** The page

    [CampusLanding] keeps three cells, [phase], [dockLive] and
    [showProsCons], and renders a typewriter in each of its two layouts
    while the phase is ["typing"]. *)
Inductive Layout : Type := Mobile | Desktop.

(** The props both typewriters get.  The caller's state is [dockLive]:
    [onFirstKeystroke] is [() => {}] and [onFirstWordComplete] is
    [() => setDockLive(true)]. *)
Definition typewriterProps : Props bool :=
  mkProps pageWords 300 2000 (Some (fun live => live)) (Some (fun _ => true)).

Record Page : Type := mkPage {
  phase : Phase;
  dockLive : bool;
  showProsCons : bool;
  pendingTimeouts : list Timeout;
  mobileTypewriter : option State;
  desktopTypewriter : option State
}.

(** The first commit of the page: the intro effect arms its two
    timeouts. *)
Definition pageMount : Page :=
  mkPage whatif false false (introTimers 1200 2200) None None.

(** What can happen to the mounted page: the next timeout fires, a timer
    of one of the typewriters fires, the button "Unsure what to choose?"
    is clicked, the modal is closed by its backdrop or its button. *)
Inductive PageEvent : Type :=
| TimeoutFires
| TypewriterEvent (l : Layout) (ev : Event)
| ClickUnsure
| ClickClose.

(** A typewriter that stays in the tree keeps its state; one that enters
    it is mounted. *)
Definition enterTypewriter (tw : option State) (live : bool)
  : JS.Result (State * bool) :=
  match tw with
  | Some st => JS.ok (st, live)
  | None => mount typewriterProps live
  end.

(** [setPhase(ph)] and the commit that follows: the typewriters are in the
    tree exactly while [phase === "typing"]. *)
Definition commitPhase (ph : Phase) (rest : list Timeout) (pg : Page)
  : JS.Result Page :=
  match ph with
  | typing =>
      m <- enterTypewriter (mobileTypewriter pg) (dockLive pg) ;;
      d <- enterTypewriter (desktopTypewriter pg) (snd m) ;;
      JS.ok (mkPage typing (snd d) (showProsCons pg) rest
                    (Some (fst m)) (Some (fst d)))
  | _ => JS.ok (mkPage ph (dockLive pg) (showProsCons pg) rest None None)
  end.

Definition pageStep (pg : Page) (ev : PageEvent) : JS.Result Page :=
  match ev with
  | TimeoutFires =>
      match pendingTimeouts pg with
      | [] => JS.ok pg
      | u :: rest => commitPhase (sets u) rest pg
      end
  | TypewriterEvent Mobile e =>
      match mobileTypewriter pg with
      | None => JS.ok pg
      | Some st =>
          s' <- step typewriterProps e (st, dockLive pg) ;;
          JS.ok (mkPage (phase pg) (snd s') (showProsCons pg)
                        (pendingTimeouts pg) (Some (fst s'))
                        (desktopTypewriter pg))
      end
  | TypewriterEvent Desktop e =>
      match desktopTypewriter pg with
      | None => JS.ok pg
      | Some st =>
          s' <- step typewriterProps e (st, dockLive pg) ;;
          JS.ok (mkPage (phase pg) (snd s') (showProsCons pg)
                        (pendingTimeouts pg) (mobileTypewriter pg)
                        (Some (fst s')))
      end
  | ClickUnsure =>
      JS.ok (mkPage (phase pg) (dockLive pg) true (pendingTimeouts pg)
                    (mobileTypewriter pg) (desktopTypewriter pg))
  | ClickClose =>
      JS.ok (mkPage (phase pg) (dockLive pg) false (pendingTimeouts pg)
                    (mobileTypewriter pg) (desktopTypewriter pg))
  end.

Fixpoint pageRun (evs : list PageEvent) (pg : Page) : JS.Result Page :=
  match evs with
  | [] => JS.ok pg
  | ev :: rest => pg' <- pageStep pg ev ;; pageRun rest pg'
  end.

(** What [CampusLanding] renders, as far as its cells and its typewriters
    decide it: the text of each typewriter (in the tree while
    [phase === "typing"]), the phone demos ([dockLive &&]) and the modal
    ([ProsConsModal] returns [null] unless [isOpen]).  The intro heading
    and the dots are no part of this view: [AnimatePresence] keeps each of
    them on screen while it animates out, after the phase has left it. *)
Record PageView : Type := mkPageView {
  mobileText : option string;
  desktopText : option string;
  demosRendered : bool;
  modalShown : bool
}.

Definition typewriterText (ph : Phase) (tw : option State)
  : JS.Result (option string) :=
  match ph, tw with
  | typing, Some st => v <- render typewriterProps st ;; JS.ok (Some (text v))
  | typing, None => JS.throw JS.TypeError
  | _, _ => JS.ok None
  end.

Definition renderPage (pg : Page) : JS.Result PageView :=
  m <- typewriterText (phase pg) (mobileTypewriter pg) ;;
  d <- typewriterText (phase pg) (desktopTypewriter pg) ;;
  JS.ok (mkPageView m d (dockLive pg) (showProsCons pg)).

Definition doneOf (tw : option State) : bool :=
  match tw with
  | Some st => firstWordDone st
  | None => false
  end.

(** The shape of the page in each phase. *)
Definition PageInv (pg : Page) : Prop :=
  match phase pg with
  | whatif =>
      pendingTimeouts pg = introTimers 1200 2200
      /\ mobileTypewriter pg = None /\ desktopTypewriter pg = None
      /\ dockLive pg = false
  | dots =>
      pendingTimeouts pg = [mkTimeout 2200 typing]
      /\ mobileTypewriter pg = None /\ desktopTypewriter pg = None
      /\ dockLive pg = false
  | typing =>
      pendingTimeouts pg = []
      /\ (exists m, mobileTypewriter pg = Some m
                    /\ Bounded typewriterProps m)
      /\ (exists d, desktopTypewriter pg = Some d
                    /\ Bounded typewriterProps d)
      /\ dockLive pg
         = doneOf (mobileTypewriter pg) || doneOf (desktopTypewriter pg)
  end.

(** Whether the modal was last opened, or last closed or never opened. *)
Fixpoint lastClick (evs : list PageEvent) (open : bool) : bool :=
  match evs with
  | [] => open
  | ClickUnsure :: rest => lastClick rest true
  | ClickClose :: rest => lastClick rest false
  | _ :: rest => lastClick rest open
  end.

Definition isClick (ev : PageEvent) : bool :=
  match ev with
  | ClickUnsure | ClickClose => true
  | _ => false
  end.

Definition setShowProsCons (b : bool) (pg : Page) : Page :=
  mkPage (phase pg) (dockLive pg) b (pendingTimeouts pg)
         (mobileTypewriter pg) (desktopTypewriter pg).

(** * Results *)

Lemma substring_0_prefix (n : nat) (w : string) :
  substring 0 n w = prefix n w.
Proof.
  revert w; induction n as [|n IH]; intros [|c r]; simpl; auto.
  now rewrite IH.
Qed.

Lemma prefix_length (n : nat) (w : string) :
  (n <= String.length w)%nat -> String.length (prefix n w) = n.
Proof.
  revert w; induction n as [|n IH]; intros [|c r]; simpl; intros H;
    try lia.
  rewrite IH; lia.
Qed.

Lemma prefix_0 (w : string) : prefix 0 w = EmptyString.
Proof. now destruct w. Qed.

Lemma slice_0_prefix (w : string) (n : Z) :
  0 <= n <= JS.strlen w -> JS.slice w 0 n = prefix (Z.to_nat n) w.
Proof.
  intros Hn. unfold JS.slice. cbn [Z.ltb Z.compare].
  replace (n <? 0) with false by (symmetry; apply Z.ltb_ge; lia).
  unfold JS.strlen in *.
  rewrite (Z.min_l 0) by lia. rewrite (Z.min_l n) by lia.
  destruct (Z.leb_spec n 0) as [Hle|Hlt].
  - replace n with 0 by lia. now rewrite prefix_0.
  - rewrite Z.sub_0_r. apply substring_0_prefix.
Qed.

Lemma clamp_min_max (s len : Z) :
  0 <= len -> Z.min (Z.max s 0) len = clamp s 0 len.
Proof.
  intros Hlen. unfold clamp.
  destruct (Z.ltb_spec s 0); [lia|].
  destruct (Z.ltb_spec len s); lia.
Qed.

Lemma strlen_nonneg (w : string) : 0 <= JS.strlen w.
Proof. unfold JS.strlen; lia. Qed.

Lemma clamp_range (s len : Z) : 0 <= len -> 0 <= clamp s 0 len <= len.
Proof.
  intros Hlen. unfold clamp.
  destruct (Z.ltb_spec s 0); [lia|].
  destruct (Z.ltb_spec len s); lia.
Qed.

(** C1. For every word [w] and every integer [s], [simulateTypewriter w s]
    is the prefix of [w] of length [clamp s 0 (length w)] (so a negative
    [s] gives the empty string and an [s] beyond the word gives the whole
    word); the function is total.  On ["feed"]: 0 gives the empty string,
    2 gives ["fe"], 4 and 99 give ["feed"]. *)
Theorem simulateTypewriter_prefix_clamp :
  (forall (w : string) (s : Z),
      simulateTypewriter w s = prefix (Z.to_nat (clamp s 0 (JS.strlen w))) w
      /\ JS.strlen (simulateTypewriter w s) = clamp s 0 (JS.strlen w))
  /\ (forall (w : string) (s : Z),
         s <= 0 -> simulateTypewriter w s = EmptyString)
  /\ (forall (w : string) (s : Z),
         JS.strlen w <= s -> simulateTypewriter w s = w)
  /\ simulateTypewriter "feed" 0 = EmptyString
  /\ simulateTypewriter "feed" 2 = "fe"
  /\ simulateTypewriter "feed" 4 = "feed"
  /\ simulateTypewriter "feed" 99 = "feed".
Proof.
  assert (Hmain : forall w s,
             simulateTypewriter w s
             = prefix (Z.to_nat (clamp s 0 (JS.strlen w))) w).
  { intros w s. unfold simulateTypewriter.
    pose proof (strlen_nonneg w) as Hlen.
    rewrite clamp_min_max by assumption.
    apply slice_0_prefix, clamp_range, Hlen. }
  assert (Hfull : forall w, prefix (String.length w) w = w).
  { induction w as [|c r IH]; simpl; congruence. }
  split; [|split; [|split; [|repeat split]]].
  - intros w s. split; [apply Hmain|].
    rewrite Hmain. pose proof (strlen_nonneg w) as Hlen.
    pose proof (clamp_range s _ Hlen) as Hr.
    unfold JS.strlen at 1. rewrite prefix_length.
    + now rewrite Z2Nat.id.
    + unfold JS.strlen in *. lia.
  - intros w s Hs. rewrite Hmain.
    pose proof (strlen_nonneg w) as Hlen. unfold clamp.
    destruct (Z.ltb_spec s 0); [apply prefix_0|].
    destruct (Z.ltb_spec (JS.strlen w) s); [lia|].
    replace s with 0 by lia. apply prefix_0.
  - intros w s Hs. rewrite Hmain.
    pose proof (strlen_nonneg w) as Hlen. unfold clamp.
    destruct (Z.ltb_spec s 0); [lia|].
    destruct (Z.ltb_spec (JS.strlen w) s).
    + unfold JS.strlen. rewrite Nat2Z.id. apply Hfull.
    + replace s with (JS.strlen w) by lia.
      unfold JS.strlen. rewrite Nat2Z.id. apply Hfull.
Qed.

Lemma simulateTypewriter_prefix_clamp_witness :
  simulateTypewriter "feed" (-3) = EmptyString
  /\ simulateTypewriter "feed" 7 = "feed".
Proof.
  split.
  - apply (proj1 (proj2 simulateTypewriter_prefix_clamp) "feed" (-3)). lia.
  - apply (proj1 (proj2 (proj2 simulateTypewriter_prefix_clamp)) "feed" 7).
    vm_compute. discriminate.
Defined.

(** ** The Typewriter: basic facts *)

Section TypewriterFacts.

Context {W : Type}.
Implicit Types (p : Props W) (st : State) (w : W) (ev : Event).

Lemma current_defined p st :
  words p <> [] -> 0 <= index st ->
  exists c, current p st = Some c /\ In c (words p).
Proof.
  intros Hne Hi. unfold current, JS.rem, JS.get.
  assert (Hlen : 0 < Z.of_nat (List.length (words p))).
  { destruct (words p); [congruence | simpl; lia]. }
  destruct (Z.eqb_spec (Z.of_nat (List.length (words p))) 0) as [E|_];
    [lia|].
  pose proof (Z.rem_bound_pos (index st) _ Hi Hlen) as [Hlo Hhi].
  destruct (Z.ltb_spec (Z.rem (index st) (Z.of_nat (List.length (words p)))) 0)
    as [Hneg|_]; [lia|].
  destruct (nth_error (words p) _) as [c|] eqn:E.
  - exists c. split; [reflexivity|]. eapply nth_error_In, E.
  - apply nth_error_None in E. lia.
Qed.

Lemma Bounded_flags p st st' :
  index st' = index st -> sub st' = sub st ->
  Bounded p st -> Bounded p st'.
Proof.
  intros Hi Hs [H0 (c & Hc & Hb)]. unfold Bounded, current in *.
  rewrite Hi, Hs. eauto.
Qed.

Lemma render_defined p st c :
  current p st = Some c ->
  render p st
  = inr (mkView (JS.slice c 0 (sub st)) (tickDelay (dir st) (speed p))
                (dir st, sub st, JS.strlen c, hold p)).
Proof. intros Hc. unfold render. now rewrite Hc. Qed.

Lemma initial_Bounded p : words p <> [] -> Bounded p initial.
Proof.
  intros Hne. split; [simpl; lia|].
  destruct (current_defined p initial Hne) as (c & Hc & _); [simpl; lia|].
  exists c. split; [assumption|]. simpl.
  pose proof (strlen_nonneg c). lia.
Qed.

Lemma effect_Bounded p (s : State * W) :
  Bounded p (fst s) -> Bounded p (fst (firstKeystrokeEffect p s)).
Proof.
  destruct s as [st w]. unfold firstKeystrokeEffect.
  destruct (negb (hasTypedOnce st) && (0 <? sub st)); simpl; [|auto].
  now apply Bounded_flags.
Qed.

Lemma onTick_Bounded p st w :
  words p <> [] -> Bounded p st ->
  exists s1, onTick p (st, w) = inr s1 /\ Bounded p (fst s1).
Proof.
  intros Hne [Hi (c & Hc & Hlo & Hhi)]. unfold onTick.
  destruct (dir st) eqn:Hd.
  - rewrite Hc. simpl.
    destruct (Z.ltb_spec (sub st) (JS.strlen c)) as [Hlt|Hge].
    + eexists. split; [reflexivity|]. simpl.
      split; [assumption|]. exists c. simpl. split; [exact Hc|lia].
    + eexists. split; [reflexivity|].
      destruct (negb (firstWordDone st) && (index st =? 0)); simpl;
        (split; [assumption|]; exists c; split; [exact Hc|simpl; lia]).
  - destruct (Z.ltb_spec 0 (sub st)) as [Hpos|Hz].
    + eexists. split; [reflexivity|]. simpl.
      split; [assumption|]. exists c. split; [exact Hc|simpl; lia].
    + eexists. split; [reflexivity|]. simpl.
      assert (Hi' : 0 <= index (setIndex (index st + 1) (setDir fwd st)))
        by (simpl; lia).
      destruct (current_defined p _ Hne Hi') as (c' & Hc' & _).
      split; [simpl; lia|]. exists c'. split; [exact Hc'|]. simpl.
      pose proof (strlen_nonneg c'). lia.
Qed.

Lemma onHold_Bounded p (s : State * W) :
  Bounded p (fst s) -> Bounded p (fst (onHold s)).
Proof. destruct s as [st w]. simpl. now apply Bounded_flags. Qed.

Lemma step_Bounded p ev st w :
  words p <> [] -> Bounded p st ->
  exists st' w', step p ev (st, w) = inr (st', w') /\ Bounded p st'.
Proof.
  intros Hne HB. unfold step.
  assert (Hmid : exists s1,
             match ev with
             | Tick => onTick p (st, w)
             | Hold => armed <- holdArmed p (fst (st, w)) ;;
                       JS.ok (if armed then onHold (st, w) else (st, w))
             end = inr s1 /\ Bounded p (fst s1)).
  { destruct ev.
    - now apply onTick_Bounded.
    - destruct HB as [Hi (c & Hc & Hb)]. unfold holdArmed. simpl fst.
      rewrite (render_defined p st c Hc). simpl.
      eexists. split; [reflexivity|].
      assert (HB : Bounded p st) by (split; eauto).
      destruct (holdWanted _); [apply (onHold_Bounded p (st, w))|];
        exact HB. }
  destruct Hmid as (s1 & -> & HB1). simpl.
  destruct (HB1) as [_ (c1 & Hc1 & _)].
  rewrite (render_defined p _ c1 Hc1). simpl.
  pose proof (effect_Bounded p s1 HB1) as HB2.
  destruct (firstKeystrokeEffect p s1) as [st' w'].
  exists st', w'. split; [reflexivity|exact HB2].
Qed.

Lemma run_Bounded p evs st w :
  words p <> [] -> Bounded p st ->
  exists st' w', run p evs (st, w) = inr (st', w') /\ Bounded p st'.
Proof.
  intros Hne. revert st w.
  induction evs as [|ev evs IH]; intros st w HB; simpl.
  - now exists st, w.
  - destruct (step_Bounded p ev st w Hne HB) as (st1 & w1 & -> & HB1).
    simpl. now apply IH.
Qed.

Lemma mount_defined p w :
  words p <> [] -> mount p w = inr (initial, w).
Proof.
  intros Hne. unfold mount.
  destruct (initial_Bounded p Hne) as [_ (c & Hc & _)].
  now rewrite (render_defined p _ c Hc).
Qed.

Lemma run_app p evs1 evs2 (s : State * W) :
  run p (evs1 ++ evs2) s = (s' <- run p evs1 s ;; run p evs2 s').
Proof.
  revert s. induction evs1 as [|ev evs1 IH]; intros s; simpl.
  - reflexivity.
  - destruct (step p ev s) as [e|s1]; simpl; [reflexivity|apply IH].
Qed.

End TypewriterFacts.

(** C5. From the initial state, every sequence of tick and hold events of
    a component with a non-empty word list runs without error and ends in
    a state where [0 <= sub <= current.length], [current] being the word at
    [index % words.length]; and each single event preserves these bounds
    from any state that has them. *)
Theorem visible_length_within_active_word :
  forall (W : Type) (p : Props W),
    words p <> [] ->
    (forall (w : W) (evs : list Event),
        exists st w' c,
          engine p w evs = inr (st, w')
          /\ current p st = Some c
          /\ 0 <= sub st <= JS.strlen c)
    /\ (forall (ev : Event) (st : State) (w : W) (c : string),
           0 <= index st -> current p st = Some c ->
           0 <= sub st <= JS.strlen c ->
           exists st' w' c',
             step p ev (st, w) = inr (st', w')
             /\ current p st' = Some c'
             /\ 0 <= sub st' <= JS.strlen c').
Proof.
  intros W p Hne. split.
  - intros w evs. unfold engine. rewrite (mount_defined p w Hne). simpl.
    destruct (run_Bounded p evs initial w Hne (initial_Bounded p Hne))
      as (st & w' & Hrun & _ & c & Hc & Hb).
    now exists st, w', c.
  - intros ev st w c Hi Hc Hb.
    assert (HB : Bounded p st) by (split; eauto).
    destruct (step_Bounded p ev st w Hne HB)
      as (st' & w' & Hstep & _ & c' & Hc' & Hb').
    now exists st', w', c'.
Qed.

Lemma visible_length_within_active_word_witness :
  exists st w' c,
    engine (recording ["feed"; "events"] 300 2000) []
           [Tick; Tick; Tick; Tick; Hold; Tick; Tick] = inr (st, w')
    /\ current (recording ["feed"; "events"] 300 2000) st = Some c
    /\ 0 <= sub st <= JS.strlen c.
Proof.
  refine (proj1 (visible_length_within_active_word _
                   (recording ["feed"; "events"] 300 2000) _) [] _).
  simpl. discriminate.
Defined.

(** C2. With [words = ["feed"; "events"]], whatever the speed and the hold:
    the component starts in [(0, 0, fwd)]; four ticks lead through
    [(0, 1, fwd)], [(0, 2, fwd)], [(0, 3, fwd)] to [(0, 4, fwd)], where the
    text shown is ["feed"]; the fifth tick gives [(0, 4, back)] and is the
    one that invokes [onFirstWordComplete]; four more ticks give
    [(0, 0, back)]; the tenth tick gives [(1, 0, fwd)]. *)
Theorem full_cycle_feed_events :
  forall (speed hold : Q),
    let p := recording ["feed"; "events"] speed hold in
    engine p [] (ticks 0) = inr (mkState 0 0 fwd false false, [])
    /\ map (fun n => stateOf (engine p [] (ticks n))) [1; 2; 3]%nat
       = [inr (mkState 0 1 fwd true false);
          inr (mkState 0 2 fwd true false);
          inr (mkState 0 3 fwd true false)]
    /\ engine p [] (ticks 4)
       = inr (mkState 0 4 fwd true false, [FirstKeystroke])
    /\ (exists v, render p (mkState 0 4 fwd true false) = inr v
                  /\ text v = "feed")
    /\ engine p [] (ticks 5)
       = inr (mkState 0 4 back true true, [FirstKeystroke; FirstWordComplete])
    /\ map (fun n => stateOf (engine p [] (ticks n))) [6; 7; 8]%nat
       = [inr (mkState 0 3 back true true);
          inr (mkState 0 2 back true true);
          inr (mkState 0 1 back true true)]
    /\ engine p [] (ticks 9)
       = inr (mkState 0 0 back true true, [FirstKeystroke; FirstWordComplete])
    /\ engine p [] (ticks 10)
       = inr (mkState 1 0 fwd true true, [FirstKeystroke; FirstWordComplete]).
Proof.
  intros speed hold p. subst p.
  repeat split; try reflexivity.
  eexists. split; reflexivity.
Qed.

(** C8. Mounting the component with an empty word list throws during the
    first render, reading [length] of the undefined [current]: no state is
    committed, no effect runs and no timer is armed. *)
Theorem empty_word_list_rejected_at_mount :
  forall (W : Type) (p : Props W) (w : W),
    words p = [] ->
    render p initial = inl JS.TypeError
    /\ mount p w = inl JS.TypeError
    /\ mountT p w = inl JS.TypeError
    /\ forall evs, engine p w evs = inl JS.TypeError.
Proof.
  intros W p w Hnil.
  assert (Hr : render p initial = inl JS.TypeError).
  { unfold render, current. rewrite Hnil. reflexivity. }
  assert (Hm : mount p w = inl JS.TypeError).
  { unfold mount. now rewrite Hr. }
  repeat split; try assumption.
  - unfold mountT. now rewrite Hm.
  - intros evs. unfold engine. now rewrite Hm.
Qed.

Lemma empty_word_list_rejected_at_mount_witness :
  render (recording [] 300 2000) initial = inl JS.TypeError
  /\ mount (recording [] 300 2000) [] = inl JS.TypeError
  /\ mountT (recording [] 300 2000) [] = inl JS.TypeError
  /\ forall evs, engine (recording [] 300 2000) [] evs = inl JS.TypeError.
Proof.
  apply (empty_word_list_rejected_at_mount _ (recording [] 300 2000) []).
  reflexivity.
Defined.

(** The host takes a whole number of milliseconds as it is. *)
Lemma timerDelay_whole (d : Q) : wholeMs d -> (JS.timerDelay d == d)%Q.
Proof.
  intros (n & Hn & Hd). unfold JS.timerDelay, JS.toInt32.
  assert (Hq : Z.quot (Qnum d) (Z.pos (Qden d)) = n).
  { unfold Qeq in Hd. simpl in Hd. rewrite Z.mul_1_r in Hd.
    rewrite Hd. apply Z.quot_mul. discriminate. }
  rewrite Hq.
  assert (H31 : 2 ^ 32 = 2 ^ 31 + 2 ^ 31) by reflexivity.
  rewrite Z.mod_small by lia.
  rewrite Z.max_l by lia.
  replace (n + 2 ^ 31 - 2 ^ 31) with n by lia.
  symmetry. exact Hd.
Qed.

(** A non-empty word list mounts, and arms the interval at the grow
    delay. *)
Lemma nonempty_word_list_mounts {W : Type} (p : Props W) (w : W) :
  words p <> [] ->
  exists h,
    mountT p w
    = inr (mkTimed initial w 0 (0 + JS.timerDelay (speed p))%Q h).
Proof.
  intros Hne. unfold mountT. rewrite (mount_defined p w Hne). simpl.
  destruct (initial_Bounded p Hne) as [_ (c & Hc & _)].
  rewrite (render_defined p _ c Hc). simpl. eauto.
Qed.

(** C9. The delay handed to [useInterval] is the speed while the direction
    is [fwd] and half the speed while it is [back], so two erasing ticks
    take the time of one typing tick; and under the clock, when that delay
    is a whole number of milliseconds, which the timers of the host take
    as it is, after every tick the interval is due again one such delay
    later. *)
Theorem tick_delay_by_direction :
  forall (W : Type) (p : Props W),
    tickDelay fwd (speed p) = speed p
    /\ (tickDelay back (speed p) == speed p / 2)%Q
    /\ (tickDelay back (speed p) + tickDelay back (speed p)
        == tickDelay fwd (speed p))%Q
    /\ (forall (st : State) (c : string),
           current p st = Some c ->
           exists v, render p st = inr v
                     /\ delay v = tickDelay (dir st) (speed p))
    /\ (forall (t t' : Timed W),
           fst (nextEvent t) = Tick -> stepT p t = inr t' ->
           wholeMs (tickDelay (dir (eng t')) (speed p)) ->
           (nextTick t' == now t' + tickDelay (dir (eng t')) (speed p))%Q).
Proof.
  intros W p. split; [reflexivity|]. split; [|split; [|split]].
  - simpl. field.
  - simpl. field.
  - intros st c Hc. rewrite (render_defined p st c Hc).
    eexists. split; reflexivity.
  - intros t t' Hev Hstep. unfold stepT in Hstep.
    destruct (nextEvent t) as [ev at_]. simpl in Hev. subst ev.
    destruct (render p (eng t)) as [e|v0] eqn:Hv0; [discriminate|].
    cbv beta iota delta [JS.bind] in Hstep.
    destruct (onTick p (eng t, world t)) as [e|s1]; [discriminate|].
    destruct (render p (fst s1)) as [e|v1] eqn:Hv1; [discriminate|].
    unfold JS.ok in Hstep. injection Hstep as <-.
    cbn [eng now nextTick].
    assert (Hd : delay v1
                 = tickDelay (dir (fst (firstKeystrokeEffect p s1)))
                             (speed p)).
    { unfold render in Hv1.
      destruct (current p (fst s1)); [|discriminate].
      simpl in Hv1. unfold JS.ok in Hv1. injection Hv1 as <-. simpl.
      destruct s1 as [st1 w1]. unfold firstKeystrokeEffect. simpl.
      now destruct (negb (hasTypedOnce st1) && (0 <? sub st1)). }
    rewrite <- Hd. intros Hwhole.
    assert (Hdue : (at_ + JS.timerDelay (delay v1) == at_ + delay v1)%Q)
      by now rewrite (timerDelay_whole _ Hwhole).
    now destruct (Qeq_bool (delay v0) (delay v1)).
Qed.

Lemma tick_delay_by_direction_witness :
  (exists v, render (recording ["feed"; "events"] 300 2000)
                    (mkState 0 4 back true true) = inr v
             /\ delay v = tickDelay back 300)
  /\ (let t' := mkTimed (mkState 0 4 back true true) [FirstWordComplete]
                        1500 (1500 + 150) None in
      stepT (recording ["feed"; "events"] 300 2000)
            (mkTimed (mkState 0 4 fwd true false) [] 1200 1500
                     (Some 3200%Q)) = inr t'
      /\ (nextTick t' == now t' + tickDelay back 300)%Q).
Proof.
  pose proof (tick_delay_by_direction _
                (recording ["feed"; "events"] 300 2000))
    as (_ & _ & _ & Hrender & Hclock).
  split.
  - apply (Hrender (mkState 0 4 back true true) "feed"). reflexivity.
  - split; [reflexivity|].
    apply (Hclock (mkTimed (mkState 0 4 fwd true false) [] 1200 1500
                           (Some 3200%Q))).
    + reflexivity.
    + reflexivity.
    + exists 150. split; [lia|reflexivity].
Defined.

(** ** The callbacks do not steer the component *)

Section CallbackIndependence.

Context {W W' : Type}.
Variables (p : Props W) (p' : Props W').
Hypothesis same_words : words p = words p'.

Lemma current_same (st : State) : current p st = current p' st.
Proof. unfold current. now rewrite same_words. Qed.

Lemma holdArmed_same (st : State) : holdArmed p st = holdArmed p' st.
Proof.
  unfold holdArmed, render. rewrite <- current_same.
  now destruct (current p st).
Qed.

Lemma onTick_state_same (st : State) (w : W) (w' : W') :
  stateOf (onTick p (st, w)) = stateOf (onTick p' (st, w')).
Proof.
  unfold onTick. rewrite <- current_same.
  destruct (dir st).
  - destruct (current p st) as [c|]; simpl; [|reflexivity].
    destruct (sub st <? JS.strlen c); simpl; [reflexivity|].
    now destruct (negb (firstWordDone st) && (index st =? 0)).
  - now destruct (0 <? sub st).
Qed.

Lemma commit_state_same (st : State) (w : W) (w' : W') :
  stateOf (_ <- render p st ;; JS.ok (firstKeystrokeEffect p (st, w)))
  = stateOf (_ <- render p' st ;; JS.ok (firstKeystrokeEffect p' (st, w'))).
Proof.
  unfold render. rewrite <- current_same.
  destruct (current p st); simpl; [|reflexivity].
  now destruct (negb (hasTypedOnce st) && (0 <? sub st)).
Qed.

Lemma step_state_same (ev : Event) (st : State) (w : W) (w' : W') :
  stateOf (step p ev (st, w)) = stateOf (step p' ev (st, w')).
Proof.
  unfold step. destruct ev.
  - pose proof (onTick_state_same st w w') as H.
    destruct (onTick p (st, w)) as [e|[st1 w1]],
             (onTick p' (st, w')) as [e'|[st1' w1']];
      simpl in H; try discriminate; [exact H|].
    injection H as <-. apply commit_state_same.
  - simpl fst. rewrite <- holdArmed_same.
    destruct (holdArmed p st) as [e|[|]]; [reflexivity| |];
      apply commit_state_same.
Qed.

Lemma run_state_same (evs : list Event) (st : State) (w : W) (w' : W') :
  stateOf (run p evs (st, w)) = stateOf (run p' evs (st, w')).
Proof.
  revert st w w'. induction evs as [|ev evs IH]; intros st w w'; simpl.
  - reflexivity.
  - pose proof (step_state_same ev st w w') as H.
    destruct (step p ev (st, w)) as [e|[st1 w1]],
             (step p' ev (st, w')) as [e'|[st1' w1']];
      simpl in H; try discriminate; [exact H|].
    injection H as <-. apply IH.
Qed.

Lemma engine_state_same (evs : list Event) (w : W) (w' : W') :
  stateOf (engine p w evs) = stateOf (engine p' w' evs).
Proof.
  unfold engine, mount, render. rewrite <- current_same.
  destruct (current p initial); simpl; [|reflexivity].
  apply run_state_same.
Qed.

End CallbackIndependence.

Section NoCallbacks.

Context {W : Type}.
Variable p : Props W.
Hypothesis no_keystroke : onFirstKeystroke p = None.
Hypothesis no_complete : onFirstWordComplete p = None.

Lemma step_world_untouched (ev : Event) (st st' : State) (w w' : W) :
  step p ev (st, w) = inr (st', w') -> w' = w.
Proof.
  unfold step, onTick, holdArmed, firstKeystrokeEffect, onHold.
  rewrite no_keystroke, no_complete. simpl.
  destruct ev.
  - destruct (dir st).
    + destruct (JS.lengthOf (current p st)) as [e|len]; simpl;
        [discriminate|].
      destruct (sub st <? len); simpl.
      * destruct (render p _); simpl; [discriminate|].
        destruct (negb _ && _); intros H; now injection H.
      * destruct (negb (firstWordDone st) && (index st =? 0)); simpl;
          (destruct (render p _); simpl; [discriminate|]);
          (destruct (negb _ && _); intros H; now injection H).
    + destruct (0 <? sub st); simpl;
        (destruct (render p _); simpl; [discriminate|]);
        (destruct (negb _ && _); intros H; now injection H).
  - destruct (render p st) as [e|v]; simpl; [discriminate|].
    destruct (holdWanted v); simpl;
      (destruct (render p _); simpl; [discriminate|]);
      (destruct (negb _ && _); intros H; now injection H).
Qed.

Lemma run_world_untouched (evs : list Event) (st st' : State) (w w' : W) :
  run p evs (st, w) = inr (st', w') -> w' = w.
Proof.
  revert st w. induction evs as [|ev evs IH]; intros st w; simpl.
  - intros H. now injection H.
  - destruct (step p ev (st, w)) as [e|[st1 w1]] eqn:Hs; simpl;
      [discriminate|].
    intros H. apply IH in H. apply step_world_untouched in Hs. congruence.
Qed.

End NoCallbacks.

(** C10. Leaving out one or both callbacks changes nothing in the run of
    the component: for every choice [k], [c] of present or absent
    callbacks, the states reached, flags included, and the views rendered
    are those of the component with the callbacks given, and with a
    non-empty word list no event raises an error.  With both left out the
    caller's state is never touched. *)
Theorem absent_callbacks_same_trajectory :
  forall (W : Type) (p : Props W) (w : W) (evs : list Event),
    (forall (k c : option (W -> W)),
        let q := mkProps (words p) (speed p) (hold p) k c in
        stateOf (engine q w evs) = stateOf (engine p w evs)
        /\ (forall st, render q st = render p st)
        /\ (words p <> [] -> exists st w', engine q w evs = inr (st, w')))
    /\ (words p <> [] ->
        exists st, engine (withoutCallbacks p) w evs = inr (st, w)
                   /\ stateOf (engine p w evs) = inr st).
Proof.
  intros W p w evs. split.
  - intros k c q. split; [|split].
    + now apply engine_state_same.
    + reflexivity.
    + intros Hne. assert (Hne' : words q <> []) by exact Hne.
      unfold engine. rewrite (mount_defined q w Hne'). simpl.
      destruct (run_Bounded q evs initial w Hne' (initial_Bounded q Hne'))
        as (st & w' & Hrun & _).
      eauto.
  - intros Hne.
    assert (Hne' : words (withoutCallbacks p) <> []) by exact Hne.
    pose proof (engine_state_same (withoutCallbacks p) p eq_refl evs w w)
      as Hsame.
    unfold engine in *. rewrite (mount_defined _ w Hne') in *.
    rewrite (mount_defined p w Hne) in *. simpl in *.
    destruct (run_Bounded (withoutCallbacks p) evs initial w Hne'
                (initial_Bounded _ Hne')) as (st & w' & Hrun & _).
    pose proof (run_world_untouched (withoutCallbacks p) eq_refl eq_refl
                  evs _ _ _ _ Hrun) as ->.
    exists st. split; [exact Hrun|].
    rewrite Hrun in Hsame. simpl in Hsame. now rewrite <- Hsame.
Qed.

Lemma absent_callbacks_same_trajectory_witness :
  exists st,
    engine (withoutCallbacks (recording ["feed"; "events"] 300 2000)) []
           (ticks 7) = inr (st, [])
    /\ stateOf (engine (recording ["feed"; "events"] 300 2000) [] (ticks 7))
       = inr st.
Proof.
  refine (proj2 (absent_callbacks_same_trajectory _
                   (recording ["feed"; "events"] 300 2000) [] (ticks 7)) _).
  simpl. discriminate.
Defined.

(** ** The intro sequence *)

Lemma introPhase_cases (d1 d2 t : Z) :
  d1 < d2 ->
  introPhase d1 d2 t
  = if d2 <=? t then typing else if d1 <=? t then dots else whatif.
Proof.
  intros Hd. unfold introPhase, introTimers. simpl.
  destruct (Z.ltb_spec d2 d1); [lia|]. unfold phaseAfter. simpl.
  now destruct (d2 <=? t), (d1 <=? t).
Qed.

(** C6. With the first timeout due before the second, both counted from
    the mount: the phase is [whatif] at time 0 and until the first delay,
    [dots] from the first delay until the second, and [typing] from the
    second delay on; it never goes back, and once [typing] it stays.  The
    page uses the delays 1200 and 2200. *)
Theorem intro_phase_schedule :
  forall d1 d2 : Z,
    0 < d1 -> d1 < d2 ->
    introPhase d1 d2 0 = whatif
    /\ (forall t, t < d1 -> introPhase d1 d2 t = whatif)
    /\ (forall t, d1 <= t < d2 -> introPhase d1 d2 t = dots)
    /\ (forall t, d2 <= t -> introPhase d1 d2 t = typing)
    /\ (forall t t', t <= t' ->
                     Phase_rank (introPhase d1 d2 t)
                     <= Phase_rank (introPhase d1 d2 t'))
    /\ (forall t t', t <= t' -> introPhase d1 d2 t = typing ->
                     introPhase d1 d2 t' = typing).
Proof.
  intros d1 d2 H0 H12.
  assert (Hc := fun t => introPhase_cases d1 d2 t H12).
  repeat split; intros; rewrite ?Hc in *;
    repeat match goal with
           | |- context [?a <=? ?b] => destruct (Z.leb_spec a b)
           | H : context [?a <=? ?b] |- _ => destruct (Z.leb_spec a b)
           end; simpl; try reflexivity; try discriminate; lia.
Qed.

Lemma intro_phase_schedule_witness :
  pagePhase 0 = whatif
  /\ (forall t, t < 1200 -> pagePhase t = whatif)
  /\ (forall t, 1200 <= t < 2200 -> pagePhase t = dots)
  /\ (forall t, 2200 <= t -> pagePhase t = typing)
  /\ (forall t t', t <= t' ->
                   Phase_rank (pagePhase t) <= Phase_rank (pagePhase t'))
  /\ (forall t t', t <= t' -> pagePhase t = typing -> pagePhase t' = typing).
Proof.
  apply (intro_phase_schedule 1200 2200); lia.
Defined.

(** ** One-shot callbacks *)

Lemma fired_snoc (n m : Notification) (log : list Notification) :
  fired n (log ++ [m])
  = (fired n log + if Notification_eqb n m then 1 else 0)%nat.
Proof.
  unfold fired. rewrite filter_app, length_app. simpl.
  now destruct (Notification_eqb n m).
Qed.

Section StepInversion.

Context {W : Type}.
Variable p : Props W.

Lemma step_inv (ev : Event) (st st' : State) (w w' : W) :
  step p ev (st, w) = inr (st', w') ->
  exists s1,
    match ev with
    | Tick => onTick p (st, w) = inr s1
    | Hold => s1 = onHold (st, w) /\ holdArmed p st = inr true
              \/ s1 = (st, w)
    end
    /\ firstKeystrokeEffect p s1 = (st', w').
Proof.
  unfold step. destruct ev.
  - destruct (onTick p (st, w)) as [e|s1]; [discriminate|].
    cbv beta iota delta [JS.bind].
    destruct (render p (fst s1)); [discriminate|].
    unfold JS.ok. intros H. injection H as H. eauto.
  - simpl fst. destruct (holdArmed p st) as [e|armed]; [discriminate|].
    cbv beta iota delta [JS.bind JS.ok].
    destruct armed.
    + destruct (render p (fst (onHold (st, w)))); [discriminate|].
      intros H. injection H as H. eauto.
    + destruct (render p (fst (st, w))); [discriminate|].
      intros H. injection H as H. eauto.
Qed.

Lemma onTick_Lost (st : State) (w : W) (s1 : State * W) :
  onTick p (st, w) = inr s1 -> Lost st -> Lost (fst s1).
Proof.
  unfold onTick, Lost. intros H (Hf & H0 & Hi).
  destruct (dir st) eqn:Hd.
  - destruct Hi as [Hi|Hi]; [|discriminate].
    destruct (JS.lengthOf (current p st)) as [e|len]; [discriminate|].
    cbv beta iota delta [JS.bind] in H.
    destruct (sub st <? len).
    + injection H as <-. simpl. auto.
    + destruct (Z.eqb_spec (index st) 0) as [E|_]; [lia|].
      rewrite andb_false_r in H. injection H as <-. simpl. auto.
  - destruct (0 <? sub st); injection H as <-; simpl.
    + rewrite Hd. auto.
    + repeat split; [assumption|lia|left; lia].
Qed.

Lemma effect_Lost (s : State * W) :
  Lost (fst s) -> Lost (fst (firstKeystrokeEffect p s)).
Proof.
  destruct s as [st w]. unfold firstKeystrokeEffect.
  now destruct (negb (hasTypedOnce st) && (0 <? sub st)).
Qed.

Lemma step_Lost (ev : Event) (st st' : State) (w w' : W) :
  step p ev (st, w) = inr (st', w') -> Lost st -> Lost st'.
Proof.
  intros Hs HL. destruct (step_inv _ _ _ _ _ Hs) as (s1 & H1 & H2).
  change st' with (fst (st', w')). rewrite <- H2. apply effect_Lost.
  destruct ev.
  - now apply (onTick_Lost st w).
  - destruct H1 as [[-> _]| ->]; [|exact HL].
    destruct HL as (Hf & H0 & Hi). repeat split; simpl; auto.
Qed.

Lemma run_Lost (evs : list Event) (st st' : State) (w w' : W) :
  run p evs (st, w) = inr (st', w') -> Lost st -> Lost st'.
Proof.
  revert st w. induction evs as [|ev evs IH]; intros st w; simpl.
  - intros H. now injection H as <-.
  - destruct (step p ev (st, w)) as [e|[st1 w1]] eqn:Hs; [discriminate|].
    simpl. intros Hrun HL. eapply IH; [exact Hrun|].
    eapply step_Lost; eauto.
Qed.

End StepInversion.

Section Recording.

Variables (ws : list string) (speed hold : Q).

Let p := recording ws speed hold.

Lemma onTick_Counted (st : State) (log : list Notification)
      (s1 : State * list Notification) :
  onTick p (st, log) = inr s1 -> Counted st log ->
  Counted (fst s1) (snd s1).
Proof.
  unfold onTick, Counted. intros H [Hk Hc].
  destruct (dir st).
  - destruct (JS.lengthOf (current p st)) as [e|len]; [discriminate|].
    cbv beta iota delta [JS.bind] in H.
    destruct (sub st <? len).
    + injection H as <-. simpl. auto.
    + destruct (firstWordDone st) eqn:Hf; simpl in H.
      * injection H as <-. simpl. rewrite Hf. auto.
      * destruct (index st =? 0); injection H as <-; simpl;
          rewrite ?fired_snoc, ?Hf, ?Hk, ?Hc; simpl; auto.
  - destruct (0 <? sub st); injection H as <-; simpl; auto.
Qed.

Lemma effect_Counted (s : State * list Notification) :
  Counted (fst s) (snd s) ->
  Counted (fst (firstKeystrokeEffect p s))
          (snd (firstKeystrokeEffect p s)).
Proof.
  destruct s as [st log]. unfold firstKeystrokeEffect, Counted.
  simpl. intros [Hk Hc].
  destruct (hasTypedOnce st) eqn:Hf; simpl.
  - rewrite Hf. auto.
  - destruct (0 <? sub st); simpl.
    + rewrite !fired_snoc, Hk, Hc. simpl. auto.
    + rewrite Hf. auto.
Qed.

Lemma step_Counted (ev : Event) (st st' : State)
      (log log' : list Notification) :
  step p ev (st, log) = inr (st', log') ->
  Counted st log -> Counted st' log'.
Proof.
  intros Hs HC. destruct (step_inv _ _ _ _ _ _ Hs) as (s1 & H1 & H2).
  assert (HC1 : Counted (fst s1) (snd s1)).
  { destruct ev.
    - now apply (onTick_Counted st log).
    - destruct H1 as [[-> _]| ->]; exact HC. }
  apply effect_Counted in HC1. now rewrite H2 in HC1.
Qed.

Lemma run_Counted (evs : list Event) (st st' : State)
      (log log' : list Notification) :
  run p evs (st, log) = inr (st', log') ->
  Counted st log -> Counted st' log'.
Proof.
  revert st log. induction evs as [|ev evs IH]; intros st log; simpl.
  - intros H. now injection H as <- <-.
  - destruct (step p ev (st, log)) as [e|[st1 log1]] eqn:Hs;
      [discriminate|].
    simpl. intros Hrun HC. eapply IH; [exact Hrun|].
    eapply step_Counted; eauto.
Qed.

(** Whatever the events, each callback has been invoked once if its flag
    is set and not at all otherwise: no callback is invoked twice. *)
Lemma callbacks_at_most_once (evs : list Event) (st : State)
      (log : list Notification) :
  engine p [] evs = inr (st, log) ->
  Counted st log
  /\ (fired FirstKeystroke log <= 1)%nat
  /\ (fired FirstWordComplete log <= 1)%nat.
Proof.
  unfold engine, mount.
  destruct (render p initial); [discriminate|]. simpl. intros Hrun.
  assert (HC : Counted st log).
  { eapply run_Counted; [exact Hrun|]. now split. }
  split; [exact HC|]. destruct HC as [-> ->].
  split; [destruct (hasTypedOnce st)|destruct (firstWordDone st)];
    simpl; lia.
Qed.

(** Once the first word is being erased or has been left without its
    completion recorded, no later event records it. *)
Lemma lost_completion_never_fires (evs : list Event) (st st' : State)
      (log log' : list Notification) :
  Lost st -> Counted st log ->
  run p evs (st, log) = inr (st', log') ->
  firstWordDone st' = false /\ fired FirstWordComplete log' = 0%nat.
Proof.
  intros HL HC Hrun.
  pose proof (run_Lost p evs _ _ _ _ Hrun HL) as (Hf & _).
  pose proof (run_Counted evs _ _ _ _ Hrun HC) as [_ Hc].
  split; [exact Hf|]. now rewrite Hc, Hf.
Qed.

End Recording.

(** ** After the reports *)

Section Quiescence.

Context {W : Type}.
Variable p : Props W.
Hypothesis nonempty : words p <> [].

Lemma current_In (st : State) (c : string) :
  current p st = Some c -> In c (words p).
Proof.
  unfold current, JS.get.
  destruct (JS.rem _ _) as [i|]; [|discriminate].
  destruct (i <? 0); [discriminate|]. apply nth_error_In.
Qed.

Lemma effect_Typed (s : State * W) :
  Typed (fst (firstKeystrokeEffect p s)).
Proof.
  destruct s as [st w]. unfold firstKeystrokeEffect, Typed.
  destruct (hasTypedOnce st) eqn:Hf; simpl; [auto|].
  destruct (Z.ltb_spec 0 (sub st)); simpl; [reflexivity|lia].
Qed.

Lemma step_Typed (ev : Event) (st st' : State) (w w' : W) :
  step p ev (st, w) = inr (st', w') -> Typed st'.
Proof.
  intros Hs. destruct (step_inv p _ _ _ _ _ Hs) as (s1 & _ & H2).
  change st' with (fst (st', w')). rewrite <- H2. apply effect_Typed.
Qed.

Lemma run_Typed (evs : list Event) (st st' : State) (w w' : W) :
  Typed st -> run p evs (st, w) = inr (st', w') -> Typed st'.
Proof.
  revert st w. induction evs as [|ev evs IH]; intros st w HT; simpl.
  - intros H. now injection H as <-.
  - destruct (step p ev (st, w)) as [e|[st1 w1]] eqn:Hs; [discriminate|].
    simpl. apply IH. eapply step_Typed; eauto.
Qed.

(** What a tick leaves alone once the first word has been left. *)
Lemma onTick_quiet (st : State) (w : W) (s1 : State * W) :
  1 <= index st ->
  onTick p (st, w) = inr s1 ->
  1 <= index (fst s1) /\ snd s1 = w
  /\ hasTypedOnce (fst s1) = hasTypedOnce st
  /\ firstWordDone (fst s1) = firstWordDone st.
Proof.
  unfold onTick. intros Hi H.
  destruct (dir st).
  - destruct (JS.lengthOf (current p st)) as [e|len]; [discriminate|].
    cbv beta iota delta [JS.bind] in H.
    destruct (sub st <? len).
    + injection H as <-. simpl. auto.
    + destruct (Z.eqb_spec (index st) 0) as [E|_]; [lia|].
      rewrite andb_false_r in H. injection H as <-. simpl. auto.
  - destruct (0 <? sub st); injection H as <-; simpl; repeat split; lia.
Qed.

Lemma onTick_typed (st : State) (w : W) (s1 : State * W) :
  onTick p (st, w) = inr s1 -> hasTypedOnce (fst s1) = hasTypedOnce st.
Proof.
  unfold onTick. intros H.
  destruct (dir st).
  - destruct (JS.lengthOf (current p st)) as [e|len]; [discriminate|].
    cbv beta iota delta [JS.bind] in H.
    destruct (sub st <? len).
    + now injection H as <-.
    + destruct (negb (firstWordDone st) && (index st =? 0));
        now injection H as <-.
  - destruct (0 <? sub st); now injection H as <-.
Qed.

Lemma step_typed_mono (ev : Event) (st st' : State) (w w' : W) :
  step p ev (st, w) = inr (st', w') ->
  hasTypedOnce st = true -> hasTypedOnce st' = true.
Proof.
  intros Hs Hf. destruct (step_inv p _ _ _ _ _ Hs) as ([st1 w1] & H1 & H2).
  assert (Hf1 : hasTypedOnce st1 = true).
  { destruct ev.
    - pose proof (onTick_typed _ _ _ H1) as E. simpl in E. congruence.
    - destruct H1 as [[H1 _]|H1]; injection H1 as -> _; exact Hf. }
  unfold firstKeystrokeEffect in H2. rewrite Hf1 in H2. simpl in H2.
  now injection H2 as <- _.
Qed.

Lemma run_typed_mono (evs : list Event) (st st' : State) (w w' : W) :
  run p evs (st, w) = inr (st', w') ->
  hasTypedOnce st = true -> hasTypedOnce st' = true.
Proof.
  revert st w. induction evs as [|ev evs IH]; intros st w; simpl.
  - intros H. now injection H as <-.
  - destruct (step p ev (st, w)) as [e|[st1 w1]] eqn:Hs; [discriminate|].
    simpl. intros Hrun Hf. eapply IH; [exact Hrun|].
    eapply step_typed_mono; eauto.
Qed.

(** Once settled, no event changes a flag or reaches the caller. *)
Lemma step_Settled (ev : Event) (st st' : State) (w w' : W) :
  Bounded p st -> Settled p st ->
  step p ev (st, w) = inr (st', w') ->
  Settled p st' /\ w' = w
  /\ hasTypedOnce st' = hasTypedOnce st
  /\ firstWordDone st' = firstWordDone st.
Proof.
  intros HB [Hi Hq] Hs.
  destruct (step_inv p _ _ _ _ _ Hs) as ([st1 w1] & H1 & H2).
  assert (H : (1 <= index st1 /\ w1 = w
               /\ hasTypedOnce st1 = hasTypedOnce st
               /\ firstWordDone st1 = firstWordDone st)
              /\ Bounded p st1).
  { destruct ev.
    - split; [exact (onTick_quiet st w _ Hi H1)|].
      destruct (onTick_Bounded p st w nonempty HB) as (s1 & Ht & HB1).
      rewrite H1 in Ht. now injection Ht as <-.
    - destruct H1 as [[H1 _]|H1]; injection H1 as -> ->.
      + split; [simpl; auto|]. now apply (onHold_Bounded p (st, w)).
      + split; [auto|exact HB]. }
  destruct H as [(Hi1 & -> & Hk1 & Hc1) HB1].
  assert (Hsame : (st', w') = (st1, w)).
  { rewrite <- H2. unfold firstKeystrokeEffect.
    destruct Hq as [Hq|Hq].
    - now rewrite Hk1, Hq.
    - destruct HB1 as [_ (c1 & Hcur & Hb)].
      rewrite (Hq c1 (current_In _ _ Hcur)) in Hb.
      destruct (Z.ltb_spec 0 (sub st1)); [lia|].
      now rewrite andb_false_r. }
  injection Hsame as -> ->.
  repeat split; auto.
  destruct Hq as [Hq|Hq]; [left; congruence|right; exact Hq].
Qed.

Lemma run_Settled (evs : list Event) (st st' : State) (w w' : W) :
  Bounded p st -> Settled p st ->
  run p evs (st, w) = inr (st', w') ->
  w' = w
  /\ hasTypedOnce st' = hasTypedOnce st
  /\ firstWordDone st' = firstWordDone st.
Proof.
  revert st w. induction evs as [|ev evs IH]; intros st w HB HS; simpl.
  - intros H. now injection H as <- <-.
  - destruct (step_Bounded p ev st w nonempty HB) as (st1 & w1 & Hs & HB1).
    rewrite Hs. simpl. intros Hrun.
    destruct (step_Settled _ _ _ _ _ HB HS Hs) as (HS1 & -> & Hk & Hc).
    destruct (IH st1 w HB1 HS1 Hrun) as (-> & Hk' & Hc').
    repeat split; congruence.
Qed.

(** In a run of ticks the completion of the first word is reported before
    the word is left. *)
Lemma step_tick_Reported (st st' : State) (w w' : W) :
  0 <= index st ->
  step p Tick (st, w) = inr (st', w') -> Reported st -> Reported st'.
Proof.
  intros Hi Hs HR.
  destruct (step_inv p _ _ _ _ _ Hs) as ([st1 w1] & H1 & H2).
  assert (HR1 : Reported st1).
  { unfold onTick in H1. unfold Reported in *.
    destruct (dir st) eqn:Hd.
    - destruct (JS.lengthOf (current p st)) as [e|len]; [discriminate|].
      cbv beta iota delta [JS.bind] in H1.
      destruct (sub st <? len).
      + injection H1 as <- _. simpl. rewrite Hd. exact HR.
      + destruct (firstWordDone st) eqn:Hf; simpl in H1.
        * injection H1 as <- _. simpl. auto.
        * destruct HR as [HR|[HR _]]; [discriminate|].
          rewrite HR in H1. simpl in H1. injection H1 as <- _. simpl. auto.
    - destruct HR as [HR|[_ HR]]; [|discriminate].
      destruct (0 <? sub st); injection H1 as <- _; simpl; auto. }
  unfold firstKeystrokeEffect in H2.
  destruct (negb (hasTypedOnce st1) && (0 <? sub st1));
    injection H2 as <- _; exact HR1.
Qed.

Lemma run_ticks_Reported (n : nat) (st st' : State) (w w' : W) :
  Bounded p st ->
  run p (ticks n) (st, w) = inr (st', w') -> Reported st -> Reported st'.
Proof.
  revert st w. induction n as [|n IH]; intros st w HB; simpl.
  - intros H. now injection H as <-.
  - destruct (step_Bounded p Tick st w nonempty HB) as (st1 & w1 & Hs & HB1).
    rewrite Hs. simpl. intros Hrun HR. eapply IH; [exact HB1|exact Hrun|].
    eapply step_tick_Reported; [exact (proj1 HB)|exact Hs|exact HR].
Qed.

Lemma engine_ticks_split (a b : nat) (w : W) (st : State) (w' : W) :
  engine p w (ticks (a + b)) = inr (st, w') ->
  exists sta wa,
    engine p w (ticks a) = inr (sta, wa)
    /\ run p (ticks b) (sta, wa) = inr (st, w').
Proof.
  unfold engine, ticks. rewrite repeat_app.
  destruct (mount p w) as [e|s0]; [discriminate|].
  cbv beta iota delta [JS.bind]. rewrite run_app.
  destruct (run p (repeat Tick a) s0) as [e|[sta wa]]; [discriminate|].
  cbv beta iota delta [JS.bind]. eauto.
Qed.

Lemma engine_Typed (evs : list Event) (w : W) (st : State) (w' : W) :
  engine p w evs = inr (st, w') -> Typed st.
Proof.
  unfold engine. rewrite (mount_defined p w nonempty).
  cbv beta iota delta [JS.bind]. apply run_Typed.
  intros H. simpl in H. lia.
Qed.

Lemma engine_ticks_Reported (n : nat) (w : W) (st : State) (w' : W) :
  engine p w (ticks n) = inr (st, w') -> Reported st.
Proof.
  unfold engine. rewrite (mount_defined p w nonempty).
  cbv beta iota delta [JS.bind]. intros Hrun.
  eapply run_ticks_Reported;
    [exact (initial_Bounded p nonempty)|exact Hrun|].
  right. split; reflexivity.
Qed.

End Quiescence.

(** Driven by ticks alone, the completion of the first word has been
    reported exactly once as soon as the word is being erased or has been
    left. *)
Lemma ticks_report_first_word_once (ws : list string) (speed hold : Q)
      (n : nat) (st : State) (log : list Notification) :
  ws <> [] ->
  engine (recording ws speed hold) [] (ticks n) = inr (st, log) ->
  index st <> 0 \/ dir st = back ->
  fired FirstWordComplete log = 1%nat.
Proof.
  intros Hne Hrun Hpast.
  destruct (callbacks_at_most_once ws speed hold _ _ _ Hrun) as [[_ Hc] _].
  rewrite Hc.
  destruct (engine_ticks_Reported (recording ws speed hold) Hne _ _ _ _ Hrun)
    as [->|[Hi Hd]]; [reflexivity|].
  destruct Hpast as [H|H]; [contradiction|congruence].
Qed.

(** ** The component and the state machine of the specification *)

Section SpecMachine.

Context {W : Type}.
Variable p : Props W.
Hypothesis nonempty : words p <> [].

Lemma activeLength_current (st : State) (c : string) :
  current p st = Some c -> activeLength (words p) (index st) = JS.strlen c.
Proof. unfold current, activeLength. now intros ->. Qed.

Lemma onTick_core (st : State) (w : W) (s1 : State * W) :
  0 <= sub st ->
  onTick p (st, w) = inr s1 ->
  core (fst s1) = specTick (words p) (core st).
Proof.
  intros Hsub. unfold onTick, core, specTick.
  destruct (dir st) eqn:Hd.
  - destruct (current p st) as [c|] eqn:Hc; simpl; [|discriminate].
    rewrite (activeLength_current st c Hc).
    destruct (sub st <? JS.strlen c).
    + intros H. injection H as <-. simpl. now rewrite Hd.
    + destruct (negb (firstWordDone st) && (index st =? 0));
        intros H; injection H as <-; reflexivity.
  - destruct (Z.ltb_spec 0 (sub st)); intros E; injection E as <-;
      simpl; rewrite ?Hd; [reflexivity|].
    repeat f_equal. lia.
Qed.

Lemma effect_core (s : State * W) :
  core (fst (firstKeystrokeEffect p s)) = core (fst s).
Proof.
  destruct s as [st w]. unfold firstKeystrokeEffect.
  now destruct (negb (hasTypedOnce st) && (0 <? sub st)).
Qed.

Lemma step_tick_core (st st' : State) (w w' : W) :
  0 <= sub st ->
  step p Tick (st, w) = inr (st', w') ->
  core st' = specTick (words p) (core st).
Proof.
  intros Hsub. unfold step.
  destruct (onTick p (st, w)) as [e|s1] eqn:Ht; [discriminate|].
  cbv beta iota delta [JS.bind].
  destruct (render p (fst s1)); [discriminate|].
  unfold JS.ok. intros H.
  change st' with (fst (st', w')). injection H as <-.
  rewrite effect_core. now apply (onTick_core st w).
Qed.

Lemma run_ticks_core (n : nat) (st st' : State) (w w' : W) :
  Bounded p st ->
  run p (ticks n) (st, w) = inr (st', w') ->
  core st' = Nat.iter n (specTick (words p)) (core st).
Proof.
  revert st w. induction n as [|n IH]; intros st w HB; simpl.
  - intros H. now injection H as <-.
  - destruct (step_Bounded p Tick st w nonempty HB)
      as (st1 & w1 & Hs & HB1).
    assert (Hsub : 0 <= sub st) by (destruct HB as [_ (c & _ & Hb)]; lia).
    rewrite Hs. simpl. intros Hrun.
    rewrite (IH st1 w1 HB1 Hrun), (step_tick_core _ _ _ _ Hsub Hs).
    apply Nat.iter_swap.
Qed.

(** Every run of ticks from the mount is a run of the specification's
    machine from [(0, 0, fwd)]. *)
Lemma engine_ticks_core (n : nat) (w : W) :
  exists st w',
    engine p w (ticks n) = inr (st, w')
    /\ Bounded p st
    /\ core st = Nat.iter n (specTick (words p)) (0, 0, fwd).
Proof.
  unfold engine. rewrite (mount_defined p w nonempty). simpl.
  destruct (run_Bounded p (ticks n) initial w nonempty
              (initial_Bounded p nonempty)) as (st & w' & Hrun & HB).
  exists st, w'. split; [exact Hrun|]. split; [exact HB|].
  apply (run_ticks_core n initial st w w' (initial_Bounded p nonempty) Hrun).
Qed.

End SpecMachine.

Lemma rem_shift (i len : Z) :
  0 <= i -> 0 < len -> JS.rem (i + len) len = JS.rem i len.
Proof.
  intros Hi Hlen. unfold JS.rem.
  destruct (Z.eqb_spec len 0); [lia|].
  rewrite !Z.rem_mod_nonneg by lia.
  replace (i + len) with (i + 1 * len) by lia.
  now rewrite Z.mod_add by lia.
Qed.

Section SpecMachineCycle.

Variable ws : list string.

Let f := specTick ws.

Lemma spec_grow (k : nat) (i s : Z) :
  s + Z.of_nat k <= activeLength ws i ->
  Nat.iter k f (i, s, fwd) = (i, s + Z.of_nat k, fwd).
Proof.
  induction k as [|k IH]; intros Hk.
  - simpl. now rewrite Z.add_0_r.
  - rewrite Nat.iter_succ, IH by lia. unfold f, specTick.
    destruct (Z.ltb_spec (s + Z.of_nat k) (activeLength ws i)); [|lia].
    do 2 f_equal. lia.
Qed.

Lemma spec_shrink (k : nat) (i s : Z) :
  Z.of_nat k <= s ->
  Nat.iter k f (i, s, back) = (i, s - Z.of_nat k, back).
Proof.
  induction k as [|k IH]; intros Hk.
  - simpl. now rewrite Z.sub_0_r.
  - rewrite Nat.iter_succ, IH by lia. unfold f, specTick.
    destruct (Z.ltb_spec 0 (s - Z.of_nat k)); [|lia].
    do 2 f_equal. lia.
Qed.

(** One word: typed in [m] ticks, turned by one, erased in [m], left by
    one. *)
Lemma spec_word_cycle (m : nat) (i : Z) :
  activeLength ws i = Z.of_nat m ->
  Nat.iter (2 * m + 2) f (i, 0, fwd) = (i + 1, 0, fwd).
Proof.
  intros Hlen.
  assert (turn : f (i, 0 + Z.of_nat m, fwd) = (i, 0 + Z.of_nat m, back)).
  { unfold f, specTick.
    now destruct (Z.ltb_spec (0 + Z.of_nat m) (activeLength ws i)); [lia|]. }
  assert (leave : f (i, 0 + Z.of_nat m - Z.of_nat m, back) = (i + 1, 0, fwd)).
  { unfold f, specTick.
    now destruct (Z.ltb_spec 0 (0 + Z.of_nat m - Z.of_nat m)); [lia|]. }
  replace (2 * m + 2)%nat with (S (m + S m)) by lia.
  rewrite Nat.iter_succ, Nat.iter_add, Nat.iter_succ.
  rewrite spec_grow by lia. rewrite turn.
  rewrite spec_shrink by lia. exact leave.
Qed.

Hypothesis nonempty : ws <> [].

Lemma activeLength_shift (i : Z) :
  0 <= i ->
  activeLength ws (i + Z.of_nat (List.length ws)) = activeLength ws i.
Proof.
  intros Hi. unfold activeLength.
  rewrite rem_shift; [reflexivity|exact Hi|].
  destruct ws; [congruence | simpl; lia].
Qed.

(** Reading the index modulo the length of the list makes the machine
    blind to a whole pass. *)
Lemma spec_iter_shift (n : nat) (i s : Z) (d : Dir) :
  0 <= i ->
  exists i' s' d',
    Nat.iter n f (i, s, d) = (i', s', d')
    /\ 0 <= i'
    /\ Nat.iter n f (i + Z.of_nat (List.length ws), s, d)
       = (i' + Z.of_nat (List.length ws), s', d').
Proof.
  intros Hi. induction n as [|n (i' & s' & d' & H1 & Hi' & H2)].
  - exists i, s, d. simpl. auto.
  - rewrite !Nat.iter_succ, H1, H2. unfold f, specTick.
    rewrite (activeLength_shift i' Hi').
    destruct d'.
    + destruct (s' <? activeLength ws i'); do 3 eexists;
        (split; [reflexivity|split; [lia|reflexivity]]).
    + destruct (0 <? s').
      * do 3 eexists; (split; [reflexivity|split; [lia|reflexivity]]).
      * exists (i' + 1), 0, fwd.
        split; [reflexivity|]. split; [lia|]. do 2 f_equal. lia.
Qed.

End SpecMachineCycle.

Lemma spec_two_words_cycle (w0 w1 : string) :
  Nat.iter (2 * String.length w0 + 2) (specTick [w0; w1]) (0, 0, fwd)
  = (1, 0, fwd)
  /\ Nat.iter (cycleTicks [w0; w1]) (specTick [w0; w1]) (0, 0, fwd)
     = (2, 0, fwd).
Proof.
  assert (H0 : Nat.iter (2 * String.length w0 + 2) (specTick [w0; w1])
                        (0, 0, fwd) = (0 + 1, 0, fwd))
    by (now apply spec_word_cycle).
  assert (H1 : Nat.iter (2 * String.length w1 + 2) (specTick [w0; w1])
                        (1, 0, fwd) = (1 + 1, 0, fwd))
    by (now apply spec_word_cycle).
  split; [exact H0|].
  unfold cycleTicks. cbn [fold_right].
  rewrite Nat.add_0_r, Nat.add_comm, Nat.iter_add, H0.
  exact H1.
Qed.

(** After the first pass over two words both reports are behind. *)
Lemma two_words_settled {W : Type} (w0 w1 : string) (speed hold : Q)
      (k c : option (W -> W)) (w : W) (st : State) (wP : W) :
  let p := mkProps [w0; w1] speed hold k c in
  engine p w (ticks (cycleTicks [w0; w1])) = inr (st, wP) ->
  Bounded p st /\ Settled p st /\ firstWordDone st = true.
Proof.
  intros p Hrun.
  assert (Hne : words p <> []) by discriminate.
  destruct (spec_two_words_cycle w0 w1) as [_ Hfull].
  destruct (engine_ticks_core p Hne (cycleTicks [w0; w1]) w)
    as (st2 & w2 & Hrun2 & HB & Hcore).
  rewrite Hrun in Hrun2. injection Hrun2 as <- <-.
  change (words p) with [w0; w1] in Hcore. rewrite Hfull in Hcore.
  injection Hcore as Hi _ _.
  split; [exact HB|].
  assert (Hdone : firstWordDone st = true).
  { destruct (engine_ticks_Reported p Hne _ _ _ _ Hrun) as [H|[H _]];
      [exact H|lia]. }
  split; [|exact Hdone]. split; [lia|].
  assert (Hreach : forall a b sta,
             (a + b = cycleTicks [w0; w1])%nat ->
             (forall wa, engine p w (ticks a) = inr (sta, wa) ->
                         0 < sub sta) ->
             (exists wa, engine p w (ticks a) = inr (sta, wa)) ->
             hasTypedOnce st = true).
  { intros a b sta Hab Hsub (wa & Ha).
    rewrite <- Hab in Hrun.
    destruct (engine_ticks_split p a b w st wP Hrun)
      as (sta' & wa' & Ha' & Hb).
    rewrite Ha in Ha'. injection Ha' as <- <-.
    apply (run_typed_mono p _ _ _ _ _ Hb).
    apply (engine_Typed p Hne _ _ _ _ Ha). exact (Hsub wa Ha). }
  assert (A0 : activeLength [w0; w1] 0 = Z.of_nat (String.length w0))
    by reflexivity.
  assert (A1 : activeLength [w0; w1] 1 = Z.of_nat (String.length w1))
    by reflexivity.
  destruct (String.length w0) as [|m0] eqn:L0.
  - destruct (String.length w1) as [|m1] eqn:L1.
    + right. unfold JS.strlen.
      intros x [<-|[<-|[]]]; [now rewrite L0|now rewrite L1].
    + left.
      destruct (engine_ticks_core p Hne 3 w) as (st3 & w3 & H3 & _ & Hc3).
      change (words p) with [w0; w1] in Hc3.
      change (Nat.iter 3 (specTick [w0; w1]) (0, 0, fwd))
        with (specTick [w0; w1] (specTick [w0; w1]
                (specTick [w0; w1] (0, 0, fwd)))) in Hc3.
      assert (E1 : specTick [w0; w1] (0, 0, fwd) = (0, 0, back))
        by (unfold specTick; now rewrite A0).
      assert (E2 : specTick [w0; w1] (0, 0, back) = (1, 0, fwd))
        by reflexivity.
      assert (E3 : specTick [w0; w1] (1, 0, fwd) = (1, 1, fwd)).
      { unfold specTick. rewrite A1.
        destruct (Z.ltb_spec 0 (Z.of_nat (S m1))); [reflexivity|lia]. }
      rewrite E1, E2, E3 in Hc3. injection Hc3 as _ Hs3 _.
      apply (Hreach 3%nat (2 * m1 + 3)%nat st3).
      * unfold cycleTicks. cbn [fold_right]. rewrite L0, L1. lia.
      * intros wa Ha. lia.
      * eauto.
  - left.
    destruct (engine_ticks_core p Hne 1 w) as (st1 & w1' & H1 & _ & Hc1).
    change (words p) with [w0; w1] in Hc1.
    change (Nat.iter 1 (specTick [w0; w1]) (0, 0, fwd))
      with (specTick [w0; w1] (0, 0, fwd)) in Hc1.
    assert (E1 : specTick [w0; w1] (0, 0, fwd) = (0, 1, fwd)).
    { unfold specTick. rewrite A0.
      destruct (Z.ltb_spec 0 (Z.of_nat (S m0))); [reflexivity|lia]. }
    rewrite E1 in Hc1. injection Hc1 as _ Hs1 _.
    apply (Hreach 1%nat (cycleTicks [w0; w1] - 1)%nat st1).
    + unfold cycleTicks. cbn [fold_right]. rewrite L0. lia.
    + intros wa Ha. lia.
    + eauto.
Qed.

(** C7. With a list of two words [w0] and [w1], one pass takes
    [cycleTicks] ticks: [w0] is typed, turned, erased and left, then [w1].
    After the pass the index is 2, which read modulo the length of the list
    is 0: the active word is [w0] again, nothing is shown and the direction
    is [fwd], as at the start.  From then on the component repeats itself:
    the state after [cycleTicks + n] ticks has the [sub], the direction, the
    active word and the whole view of the state after [n] ticks, its index
    being larger by 2; and the two flags and the caller's state are those
    left by the first pass. *)
Theorem two_words_wrap_around :
  forall (W : Type) (w0 w1 : string) (speed hold : Q)
         (k c : option (W -> W)) (w : W),
    let p := mkProps [w0; w1] speed hold k c in
    let P := cycleTicks [w0; w1] in
    (exists st wh,
        engine p w (ticks (2 * String.length w0 + 2)) = inr (st, wh)
        /\ core st = (1, 0, fwd) /\ current p st = Some w1)
    /\ (exists st wP,
           engine p w (ticks P) = inr (st, wP)
           /\ core st = (2, 0, fwd)
           /\ JS.rem (index st) (Z.of_nat (List.length (words p))) = Some 0
           /\ current p st = Some w0
           /\ render p st = render p initial)
    /\ (forall n : nat,
           exists st wn st' wn',
             engine p w (ticks n) = inr (st, wn)
             /\ engine p w (ticks (P + n)) = inr (st', wn')
             /\ index st' = index st + 2
             /\ sub st' = sub st
             /\ dir st' = dir st
             /\ current p st' = current p st
             /\ render p st' = render p st)
    /\ (forall n : nat,
           exists stP wP st',
             engine p w (ticks P) = inr (stP, wP)
             /\ engine p w (ticks (P + n)) = inr (st', wP)
             /\ hasTypedOnce st' = hasTypedOnce stP
             /\ firstWordDone st' = firstWordDone stP).
Proof.
  intros W w0 w1 speed hold k c w p P.
  assert (Hne : words p <> []) by discriminate.
  destruct (spec_two_words_cycle w0 w1) as [Hhalf Hfull].
  split; [|split; [|split]].
  - destruct (engine_ticks_core p Hne (2 * String.length w0 + 2) w)
      as (st & wh & Hrun & _ & Hcore).
    exists st, wh. split; [exact Hrun|].
    change (words p) with [w0; w1] in Hcore. rewrite Hhalf in Hcore.
    split; [exact Hcore|].
    injection Hcore as Hi _ _. unfold current. now rewrite Hi.
  - destruct (engine_ticks_core p Hne P w) as (st & wP & Hrun & _ & Hcore).
    exists st, wP. split; [exact Hrun|].
    change (words p) with [w0; w1] in Hcore. unfold P in Hcore.
    rewrite Hfull in Hcore. split; [exact Hcore|].
    injection Hcore as Hi Hs Hd.
    assert (Hcur : current p st = Some w0)
      by (unfold current; now rewrite Hi).
    repeat split.
    + now rewrite Hi.
    + exact Hcur.
    + unfold render. rewrite Hcur, Hs, Hd. reflexivity.
  - intros n.
    destruct (engine_ticks_core p Hne n w) as (st & wn & Hrun & HB & Hcore).
    destruct (engine_ticks_core p Hne (P + n) w)
      as (st' & wn' & Hrun' & _ & Hcore').
    exists st, wn, st', wn'. split; [exact Hrun|]. split; [exact Hrun'|].
    change (words p) with [w0; w1] in Hcore, Hcore'.
    rewrite Nat.add_comm, Nat.iter_add in Hcore'. unfold P in Hcore'.
    rewrite Hfull in Hcore'.
    destruct (spec_iter_shift [w0; w1] ltac:(discriminate) n 0 0 fwd
                ltac:(lia)) as (i' & s' & d' & E & Hi' & E').
    change (0 + Z.of_nat (List.length [w0; w1])) with 2 in E'.
    change (Z.of_nat (List.length [w0; w1])) with 2 in E'.
    rewrite E in Hcore. rewrite E' in Hcore'.
    injection Hcore as Hi Hs Hd. injection Hcore' as Hi2 Hs2 Hd2.
    assert (Hcur : current p st' = current p st).
    { unfold current. rewrite Hi2, Hi.
      change (Z.of_nat (List.length (words p))) with 2.
      now rewrite rem_shift by lia. }
    repeat split; try congruence.
    unfold render. rewrite Hcur, Hs2, Hd2, Hs, Hd. reflexivity.
  - intros n.
    destruct (engine_ticks_core p Hne (P + n) w)
      as (st' & wn' & Hrun' & _).
    destruct (engine_ticks_split p P n w st' wn' Hrun')
      as (stP & wP & HrunP & Hrest).
    destruct (two_words_settled w0 w1 speed hold k c w stP wP HrunP)
      as (HB & HS & _).
    destruct (run_Settled p Hne _ _ _ _ _ HB HS Hrest) as (-> & Hk & Hc).
    exists stP, wP, st'. auto.
Qed.

(** ** The component under the clock *)

Section TimedFacts.

Context {W : Type}.
Variable p : Props W.

Lemma render_effect (s : State * W) :
  render p (fst (firstKeystrokeEffect p s)) = render p (fst s).
Proof.
  destruct s as [st w]. unfold firstKeystrokeEffect.
  now destruct (negb (hasTypedOnce st) && (0 <? sub st)).
Qed.

Lemma depsEqb_holdWanted (v0 v1 : View) :
  depsEqb (holdDeps v0) (holdDeps v1) = true ->
  holdWanted v0 = holdWanted v1.
Proof.
  unfold depsEqb, holdWanted.
  destruct (holdDeps v0) as [[[d0 s0] l0] h0].
  destruct (holdDeps v1) as [[[d1 s1] l1] h1].
  intros H. apply andb_prop in H as [H _].
  apply andb_prop in H as [H Hl]. apply andb_prop in H as [Hd Hs].
  apply Z.eqb_eq in Hl, Hs. subst.
  destruct d0, d1; try discriminate; reflexivity.
Qed.

(** When the word is fully typed and the interval is due no later than
    the hold timeout, the tick itself turns the direction and the hold
    timeout is cleared without having fired. *)
Lemma tick_before_hold (t : Timed W) (c : string) (h : Q) :
  current p (eng t) = Some c ->
  dir (eng t) = fwd ->
  sub (eng t) = JS.strlen c ->
  holdAt t = Some h ->
  (nextTick t <= h)%Q ->
  exists t',
    stepT p t = inr t'
    /\ core (eng t') = (index (eng t), sub (eng t), back)
    /\ now t' = nextTick t
    /\ holdAt t' = None.
Proof.
  intros Hc Hd Hs Hh Hle. unfold stepT, nextEvent.
  rewrite Hh. apply Qle_bool_iff in Hle. rewrite Hle.
  rewrite (render_defined p _ c Hc).
  cbv beta iota delta [JS.bind].
  unfold onTick. rewrite Hd, Hc. simpl JS.lengthOf.
  cbv beta iota delta [JS.bind JS.ok].
  rewrite Hs, Z.ltb_irrefl.
  set (s1 := if negb (firstWordDone (eng t)) && (index (eng t) =? 0)
             then _ else _).
  assert (Hcore : core (fst s1) = core (eng t)).
  { subst s1. now destruct (negb _ && _). }
  injection Hcore as Hi1 Hs1 Hd1.
  assert (Hc1 : current p (setDir back (fst s1)) = Some c).
  { unfold current in *. simpl. now rewrite Hi1. }
  simpl fst. rewrite (render_defined p _ c Hc1).
  cbv beta iota delta [JS.bind]. eexists. split; [reflexivity|].
  cbn [eng now holdAt holdDeps delay].
  split; [|split; [reflexivity|reflexivity]].
  destruct (negb (hasTypedOnce (fst s1)) && (0 <? sub (fst s1)));
    unfold core; simpl; now rewrite Hi1, Hs1, Hs.
Qed.

(** When the hold timeout is due before the interval, it turns the
    direction by itself: neither flag changes, and the caller hears of
    nothing new. *)
Lemma hold_before_tick (t : Timed W) (c : string) (h : Q) :
  current p (eng t) = Some c ->
  holdAt t = Some h ->
  ~ (nextTick t <= h)%Q ->
  exists t',
    stepT p t = inr t'
    /\ core (eng t') = (index (eng t), sub (eng t), back)
    /\ now t' = h
    /\ holdAt t' = None
    /\ firstWordDone (eng t') = firstWordDone (eng t)
    /\ (hasTypedOnce (eng t) = true -> world t' = world t).
Proof.
  intros Hc Hh Hlt. unfold stepT, nextEvent. rewrite Hh.
  destruct (Qle_bool (nextTick t) h) eqn:Hle;
    [apply Qle_bool_iff in Hle; contradiction|].
  rewrite (render_defined p _ c Hc).
  cbv beta iota delta [JS.bind JS.ok].
  assert (Hc1 : current p (fst (onHold (eng t, world t))) = Some c)
    by exact Hc.
  rewrite (render_defined p _ c Hc1). cbv beta iota delta [JS.bind].
  eexists. split; [reflexivity|]. cbn [eng world now holdAt holdDeps].
  unfold onHold, firstKeystrokeEffect.
  cbn [fst snd hasTypedOnce setDir sub dir].
  repeat split.
  - now destruct (negb (hasTypedOnce (eng t)) && (0 <? sub (eng t))).
  - now destruct (depsEqb _ _).
  - now destruct (negb (hasTypedOnce (eng t)) && (0 <? sub (eng t))).
  - intros ->. reflexivity.
Qed.

End TimedFacts.

(** With the defaults of the component, [speed = 90] and [hold = 1200],
    the first word is likewise turned by the tick that follows its last
    letter, 90 ms later, and the hold timeout is cleared. *)
Lemma hold_cut_short_with_defaults :
  exists t4 t5 : Timed (list Notification),
    clock (recording pageWords 90 1200) [] 4 = inr t4
    /\ clock (recording pageWords 90 1200) [] 5 = inr t5
    /\ core (eng t4) = (0, 4, fwd) /\ (now t4 == 360)%Q
    /\ (exists h, holdAt t4 = Some h /\ (h == 360 + 1200)%Q)
    /\ core (eng t5) = (0, 4, back) /\ (now t5 == 450)%Q
    /\ holdAt t5 = None.
Proof.
  do 2 eexists.
  split; [vm_compute; reflexivity|].
  split; [vm_compute; reflexivity|].
  repeat split. eexists. split; reflexivity.
Qed.

(** A delay with a fraction is cut to whole milliseconds: with
    [speed = 45] the erasing delay 22.5 counts as 22 ms, and the four
    ticks of the word ["a"] come 45, 90, 112 and 134 ms after the
    mount. *)
Lemma fractional_delay_is_cut :
  exists t1 t2 t3 t4 : Timed (list Notification),
    clock (recording ["a"] 45 1200) [] 1 = inr t1
    /\ clock (recording ["a"] 45 1200) [] 2 = inr t2
    /\ clock (recording ["a"] 45 1200) [] 3 = inr t3
    /\ clock (recording ["a"] 45 1200) [] 4 = inr t4
    /\ (now t1 == 45)%Q /\ (now t2 == 90)%Q
    /\ (now t3 == 112)%Q /\ (now t4 == 134)%Q
    /\ core (eng t4) = (1, 0, fwd).
Proof.
  do 4 eexists.
  split; [vm_compute; reflexivity|].
  split; [vm_compute; reflexivity|].
  split; [vm_compute; reflexivity|].
  split; [vm_compute; reflexivity|].
  repeat split.
Qed.

(** *** The clocked component runs the events of the unclocked one *)

Section TimedRefinement.

Context {W : Type}.
Variable p : Props W.
Hypothesis nonempty : words p <> [].

Lemma stepT_refines (t : Timed W) :
  Bounded p (eng t) -> TimerSound p t ->
  exists t',
    stepT p t = inr t'
    /\ step p (fst (nextEvent t)) (eng t, world t) = inr (eng t', world t')
    /\ Bounded p (eng t')
    /\ TimerSound p t'.
Proof.
  intros HB HT. pose proof HB as [Hi (c & Hc & Hb)].
  unfold stepT. destruct (nextEvent t) as [ev at_] eqn:Hev. simpl fst.
  rewrite (render_defined p _ c Hc). cbv beta iota delta [JS.bind].
  destruct ev.
  - destruct (onTick_Bounded p (eng t) (world t) nonempty HB)
      as (s1 & Ht & HB1).
    rewrite Ht. cbv beta iota delta [JS.bind].
    pose proof HB1 as [Hi1 (c1 & Hc1 & Hb1)].
    rewrite (render_defined p _ c1 Hc1). cbv beta iota delta [JS.bind].
    eexists. split; [reflexivity|]. cbn [eng world holdAt].
    split; [|split].
    + unfold step. rewrite Ht. cbv beta iota delta [JS.bind].
      rewrite (render_defined p _ c1 Hc1). cbv beta iota delta [JS.bind].
      unfold JS.ok. f_equal. apply surjective_pairing.
    + now apply effect_Bounded.
    + intros h Hh. cbn [eng holdAt] in *. unfold holdArmed.
      rewrite render_effect, (render_defined p _ c1 Hc1).
      cbv beta iota delta [JS.bind JS.ok]. f_equal.
      match type of Hh with
      | (if depsEqb ?d0 ?d1 then _ else _) = _ =>
          destruct (depsEqb d0 d1) eqn:Hdeps
      end.
      * pose proof (HT h Hh) as Harmed. unfold holdArmed in Harmed.
        rewrite (render_defined p _ c Hc) in Harmed.
        cbv beta iota delta [JS.bind JS.ok] in Harmed.
        injection Harmed as Harmed. rewrite <- Harmed. symmetry.
        apply depsEqb_holdWanted. exact Hdeps.
      * match type of Hh with
        | (if ?b then _ else _) = _ => destruct b eqn:Hw
        end; [reflexivity|discriminate].
  - assert (Harmed : holdArmed p (eng t) = inr true).
    { unfold nextEvent in Hev. destruct (holdAt t) as [h0|] eqn:Hh.
      - now apply (HT h0).
      - discriminate. }
    assert (Hc1 : current p (fst (onHold (eng t, world t))) = Some c)
      by exact Hc.
    cbv beta iota delta [JS.bind JS.ok].
    rewrite (render_defined p _ c Hc1). cbv beta iota delta [JS.bind].
    eexists. split; [reflexivity|]. cbn [eng world holdAt].
    split; [|split].
    + unfold step. simpl fst. rewrite Harmed.
      cbv beta iota delta [JS.bind JS.ok].
      rewrite (render_defined p _ c Hc1). cbv beta iota delta [JS.bind].
      unfold JS.ok. f_equal. apply surjective_pairing.
    + apply effect_Bounded. now apply (onHold_Bounded p (eng t, world t)).
    + intros h Hh. cbn [eng holdAt] in *. exfalso.
      match type of Hh with
      | (if ?b then _ else _) = _ => destruct b
      end; discriminate.
Qed.

Lemma runT_refines (n : nat) (t : Timed W) :
  Bounded p (eng t) -> TimerSound p t ->
  exists t',
    runT p n t = inr t'
    /\ run p (traceT p n t) (eng t, world t) = inr (eng t', world t')
    /\ Bounded p (eng t')
    /\ TimerSound p t'.
Proof.
  revert t. induction n as [|n IH]; intros t HB HT.
  - exists t. simpl. auto.
  - destruct (stepT_refines t HB HT) as (t1 & Hs & Hu & HB1 & HT1).
    destruct (IH t1 HB1 HT1) as (t' & Hr & Hur & HB' & HT').
    exists t'. simpl. rewrite Hs, Hu. simpl. auto.
Qed.

Lemma mountT_sound (w : W) :
  exists t0,
    mountT p w = inr t0
    /\ eng t0 = initial /\ world t0 = w
    /\ Bounded p (eng t0) /\ TimerSound p t0.
Proof.
  pose proof (initial_Bounded p nonempty) as HB.
  pose proof HB as [_ (c & Hc & _)].
  pose proof (render_defined p initial c Hc) as Hr.
  set (v := mkView _ _ _) in Hr.
  assert (Hm : mountT p w
               = inr (mkTimed initial w 0 (0 + JS.timerDelay (delay v))%Q
                        (if holdWanted v
                         then Some (0 + JS.timerDelay (hold p))%Q
                         else None))).
  { unfold mountT. rewrite (mount_defined p w nonempty).
    cbv beta iota delta [JS.bind]. simpl fst. rewrite Hr. reflexivity. }
  eexists. split; [exact Hm|]. cbn [eng world holdAt].
  repeat split; try exact (proj1 HB); try exact (proj2 HB).
  intros h Hh. cbn [eng holdAt] in *. unfold holdArmed. rewrite Hr.
  cbv beta iota delta [JS.bind JS.ok]. f_equal.
  destruct (holdWanted v); [reflexivity|discriminate].
Qed.

(** Every run under the clock is a run of the events it fires. *)
Lemma clock_refines (w : W) (n : nat) :
  exists t0 t,
    mountT p w = inr t0
    /\ clock p w n = inr t
    /\ engine p w (traceT p n t0) = inr (eng t, world t)
    /\ Bounded p (eng t).
Proof.
  destruct (mountT_sound w) as (t0 & Hm & He & Hw & HB & HT).
  destruct (runT_refines n t0 HB HT) as (t & Hr & Hu & HB' & _).
  exists t0, t. split; [exact Hm|]. unfold clock, engine.
  rewrite Hm, (mount_defined p w nonempty). simpl.
  rewrite He, Hw in Hu. auto.
Qed.

Lemma runT_add (a b : nat) (t : Timed W) :
  runT p (a + b) t = (t' <- runT p a t ;; runT p b t').
Proof.
  revert t. induction a as [|a IH]; intros t; simpl.
  - reflexivity.
  - destruct (stepT p t) as [e|t1]; simpl; [reflexivity|apply IH].
Qed.

End TimedRefinement.

(** C3. On the page ([speed = 300], [hold = 2000]) the word ["feed"] is
    fully typed 1200 ms after the mount, with the hold timeout due at 3200.
    The next timer to fire is the interval, at 1500: its tick turns the
    direction to [back] and the hold timeout is cleared; the first letter
    is erased at 1650.  The word is held for 300 ms, not for the 2000 ms of
    [hold], and through the first sixty timer events no hold timeout fires
    at all. *)
Theorem hold_cut_short_by_next_tick :
  (exists t0 t4 t5 t6 : Timed (list Notification),
      mountT pageProps [] = inr t0
      /\ clock pageProps [] 4 = inr t4
      /\ clock pageProps [] 5 = inr t5
      /\ clock pageProps [] 6 = inr t6
      /\ (core (eng t4) = (0, 4, fwd)
          /\ (now t4 == 1200)%Q
          /\ exists h, holdAt t4 = Some h /\ (h == 1200 + hold pageProps)%Q)
      /\ fst (nextEvent t4) = Tick
      /\ (core (eng t5) = (0, 4, back)
          /\ (now t5 == 1500)%Q
          /\ holdAt t5 = None)
      /\ (core (eng t6) = (0, 3, back) /\ (now t6 == 1650)%Q)
      /\ forallb (fun ev => match ev with Tick => true | Hold => false end)
                 (traceT pageProps 60 t0) = true)
  /\ (1500 < 1200 + hold pageProps)%Q.
Proof.
  split; [|reflexivity].
  do 4 eexists.
  split; [vm_compute; reflexivity|].
  split; [vm_compute; reflexivity|].
  split; [vm_compute; reflexivity|].
  split; [vm_compute; reflexivity|].
  split.
  { split; [reflexivity|]. split; [reflexivity|].
    eexists. split; reflexivity. }
  split; [reflexivity|].
  split; [repeat split|].
  split; [repeat split|].
  vm_compute. reflexivity.
Qed.

(** C4. With [hold] shorter than [speed] (here 100 and 300) the hold
    timeout fires 100 ms after ["feed"] is fully typed, before the next
    tick: the direction turns to [back] without [onFirstWordComplete]
    having been invoked, and whatever events follow, it is never invoked:
    the flag [firstWordDone] stays false and the log of the caller never
    holds a [FirstWordComplete], in every continuation of these five
    events and at every later step of the clock. *)
Theorem first_word_completion_lost_to_hold :
  let p := recording ["feed"; "events"] 300 100 in
  (exists t0 t4 t5 : Timed (list Notification),
      mountT p [] = inr t0
      /\ clock p [] 4 = inr t4
      /\ clock p [] 5 = inr t5
      /\ (core (eng t4) = (0, 4, fwd) /\ (now t4 == 1200)%Q)
      /\ traceT p 5 t0 = [Tick; Tick; Tick; Tick; Hold]
      /\ (core (eng t5) = (0, 4, back) /\ (now t5 == 1300)%Q)
      /\ firstWordDone (eng t5) = false
      /\ world t5 = [FirstKeystroke])
  /\ (forall evs : list Event,
         exists st log,
           engine p [] ([Tick; Tick; Tick; Tick; Hold] ++ evs) = inr (st, log)
           /\ firstWordDone st = false
           /\ fired FirstWordComplete log = 0%nat)
  /\ (forall n : nat,
         exists t,
           clock p [] (5 + n) = inr t
           /\ firstWordDone (eng t) = false
           /\ fired FirstWordComplete (world t) = 0%nat).
Proof.
  intros p.
  assert (Hne : words p <> []) by discriminate.
  set (st5 := mkState 0 4 back true false).
  assert (HB : Bounded p st5).
  { split; [simpl; lia|]. exists "feed". split; [reflexivity|].
    simpl. unfold JS.strlen. simpl. lia. }
  assert (HL : Lost st5) by (repeat split; simpl; auto; lia).
  assert (HC : Counted st5 [FirstKeystroke]) by (split; reflexivity).
  split; [|split].
  - do 3 eexists.
    split; [vm_compute; reflexivity|].
    split; [vm_compute; reflexivity|].
    split; [vm_compute; reflexivity|].
    repeat split.
  - intros evs. unfold engine.
    rewrite (mount_defined p [] Hne). cbv beta iota delta [JS.bind].
    rewrite run_app.
    assert (H5 : run p [Tick; Tick; Tick; Tick; Hold] (initial, [])
                 = inr (st5, [FirstKeystroke])) by reflexivity.
    rewrite H5. cbv beta iota delta [JS.bind].
    destruct (run_Bounded p evs st5 [FirstKeystroke] Hne HB)
      as (st & log & Hrun & _).
    exists st, log. split; [exact Hrun|].
    apply (lost_completion_never_fires ["feed"; "events"] 300 100
             evs st5 st [FirstKeystroke] log HL HC Hrun).
  - intros n.
    set (t0 := mkTimed initial ([] : list Notification) 0 (0 + 300)%Q None).
    set (t5 := mkTimed st5 [FirstKeystroke] (1300 # 1) (1450 # 1) None).
    assert (Hm : mountT p [] = inr t0) by reflexivity.
    assert (H5 : runT p 5 t0 = inr t5) by (vm_compute; reflexivity).
    assert (HT : TimerSound p t5) by (intros h Hh; discriminate).
    destruct (runT_refines p Hne n t5 HB HT) as (t & Hr & Hu & _).
    exists t. unfold clock. rewrite Hm. cbv beta iota delta [JS.bind].
    rewrite runT_add, H5. cbv beta iota delta [JS.bind].
    split; [exact Hr|].
    apply (lost_completion_never_fires ["feed"; "events"] 300 100
             (traceT p n t5) st5 (eng t) [FirstKeystroke] (world t)
             HL HC Hu).
Qed.


(** * Further properties of the code *)

(** ** The slice helper *)

Lemma simulateTypewriter_as_prefix (w : string) (s : Z) :
  simulateTypewriter w s = prefix (Z.to_nat (clamp s 0 (JS.strlen w))) w.
Proof.
  unfold simulateTypewriter. pose proof (strlen_nonneg w) as Hlen.
  rewrite clamp_min_max by assumption.
  apply slice_0_prefix, clamp_range, Hlen.
Qed.

Lemma prefix_prefix (a b : nat) (w : string) :
  prefix a (prefix b w) = prefix (Nat.min a b) w.
Proof.
  revert b w. induction a as [|a IH]; intros [|b] [|c r]; simpl;
    try reflexivity.
  now rewrite IH.
Qed.

Lemma prefix_strlen (n : nat) (w : string) :
  JS.strlen (prefix n w) = Z.of_nat (Nat.min n (String.length w)).
Proof.
  unfold JS.strlen. f_equal. revert w.
  induction n as [|n IH]; intros [|c r]; simpl; try reflexivity.
  now rewrite IH.
Qed.

Lemma prefix_extends (n m : nat) (w : string) :
  (n <= m)%nat ->
  exists rest,
    prefix m w = (prefix n w ++ rest)%string
    /\ (String.length rest <= m - n)%nat.
Proof.
  revert m w. induction n as [|n IH]; intros m w Hnm.
  - exists (prefix m w). rewrite prefix_0. split; [reflexivity|].
    pose proof (prefix_strlen m w) as H. unfold JS.strlen in H. lia.
  - destruct m as [|m]; [lia|]. destruct w as [|c r]; simpl.
    + exists EmptyString. split; [reflexivity|simpl; lia].
    + destruct (IH m r ltac:(lia)) as (rest & -> & Hlen).
      exists rest. split; [reflexivity|lia].
Qed.

(** X1. Slicing a slice: [simulateTypewriter] applied to its own result
    is [simulateTypewriter] at the smaller step count, the inner count
    being floored at zero. *)
Theorem simulateTypewriter_twice :
  forall (w : string) (a b : Z),
    simulateTypewriter (simulateTypewriter w a) b
    = simulateTypewriter w (Z.min (Z.max a 0) b).
Proof.
  intros w a b. rewrite !simulateTypewriter_as_prefix.
  rewrite prefix_prefix, prefix_strlen. f_equal.
  pose proof (strlen_nonneg w) as Hlen. unfold JS.strlen in *.
  unfold clamp.
  repeat match goal with
         | |- context [?x <? ?y] => destruct (Z.ltb_spec x y)
         end; lia.
Qed.

(** X2. More steps only add to the end: for [a <= b] the text at [b]
    steps is the text at [a] steps followed by at most [b - a]
    characters. *)
Theorem simulateTypewriter_grows :
  forall (w : string) (a b : Z),
    a <= b ->
    exists rest,
      simulateTypewriter w b = (simulateTypewriter w a ++ rest)%string
      /\ JS.strlen rest <= b - a.
Proof.
  intros w a b Hab. rewrite !simulateTypewriter_as_prefix.
  pose proof (strlen_nonneg w) as Hlen.
  pose proof (clamp_range a _ Hlen) as Ha.
  pose proof (clamp_range b _ Hlen) as Hb.
  assert (Hc : clamp a 0 (JS.strlen w) <= clamp b 0 (JS.strlen w)
               /\ clamp b 0 (JS.strlen w) - clamp a 0 (JS.strlen w) <= b - a).
  { unfold clamp.
    repeat match goal with
           | |- context [?x <? ?y] => destruct (Z.ltb_spec x y)
           end; lia. }
  destruct (prefix_extends (Z.to_nat (clamp a 0 (JS.strlen w)))
              (Z.to_nat (clamp b 0 (JS.strlen w))) w ltac:(lia))
    as (rest & E & Hr).
  exists rest. split; [exact E|]. unfold JS.strlen in *. lia.
Qed.

Lemma simulateTypewriter_grows_witness :
  exists rest,
    simulateTypewriter "events" 5
    = (simulateTypewriter "events" 2 ++ rest)%string
    /\ JS.strlen rest <= 5 - 2.
Proof.
  apply (simulateTypewriter_grows "events" 2 5). lia.
Defined.

(** X3. What the component shows is what the helper computes: after any
    events from the mount, the text rendered is
    [simulateTypewriter current sub], and it has exactly [sub]
    characters. *)
Theorem rendered_text_is_simulateTypewriter :
  forall (W : Type) (p : Props W) (w : W) (evs : list Event),
    words p <> [] ->
    exists st w' c v,
      engine p w evs = inr (st, w')
      /\ current p st = Some c
      /\ render p st = inr v
      /\ text v = simulateTypewriter c (sub st)
      /\ JS.strlen (text v) = sub st.
Proof.
  intros W p w evs Hne. unfold engine.
  rewrite (mount_defined p w Hne). cbv beta iota delta [JS.bind].
  destruct (run_Bounded p evs initial w Hne (initial_Bounded p Hne))
    as (st & w' & Hrun & _ & c & Hc & Hb).
  exists st, w', c. eexists.
  split; [exact Hrun|]. split; [exact Hc|].
  split; [apply (render_defined p st c Hc)|]. cbn [text].
  unfold simulateTypewriter.
  rewrite Z.max_l, Z.min_l by lia. split; [reflexivity|].
  rewrite slice_0_prefix by lia. rewrite prefix_strlen.
  unfold JS.strlen in *. lia.
Qed.

Lemma rendered_text_is_simulateTypewriter_witness :
  exists st w' c v,
    engine pageProps [] [Tick; Tick; Tick] = inr (st, w')
    /\ current pageProps st = Some c
    /\ render pageProps st = inr v
    /\ text v = simulateTypewriter c (sub st)
    /\ JS.strlen (text v) = sub st.
Proof.
  apply (rendered_text_is_simulateTypewriter _ pageProps []
           [Tick; Tick; Tick]).
  discriminate.
Defined.

(** ** The callbacks over arbitrary runs *)

Section Reports.

Context {W : Type}.
Variable p : Props W.

Lemma engine_ok_nonempty (w : W) (evs : list Event) (s : State * W) :
  engine p w evs = inr s -> words p <> [].
Proof.
  intros H Hnil. unfold engine, mount, render, current in H.
  rewrite Hnil in H. discriminate.
Qed.

Lemma engine_split (a b : list Event) (w : W) (s : State * W) :
  engine p w (a ++ b) = inr s ->
  exists mid, engine p w a = inr mid /\ run p b mid = inr s.
Proof.
  unfold engine. destruct (mount p w) as [e|s0]; [discriminate|].
  cbv beta iota delta [JS.bind]. rewrite run_app.
  destruct (run p a s0) as [e|mid]; [discriminate|].
  cbv beta iota delta [JS.bind]. eauto.
Qed.

Lemma onTick_done_mono (st : State) (w : W) (s1 : State * W) :
  onTick p (st, w) = inr s1 ->
  firstWordDone st = true -> firstWordDone (fst s1) = true.
Proof.
  unfold onTick. intros H Hf.
  destruct (dir st).
  - destruct (JS.lengthOf (current p st)) as [e|len]; [discriminate|].
    cbv beta iota delta [JS.bind] in H.
    destruct (sub st <? len).
    + now injection H as <-.
    + rewrite Hf in H. simpl in H. now injection H as <-.
  - destruct (0 <? sub st); now injection H as <-.
Qed.

Lemma step_done_mono (ev : Event) (st st' : State) (w w' : W) :
  step p ev (st, w) = inr (st', w') ->
  firstWordDone st = true -> firstWordDone st' = true.
Proof.
  intros Hs Hf. destruct (step_inv p _ _ _ _ _ Hs) as ([st1 w1] & H1 & H2).
  assert (Hf1 : firstWordDone st1 = true).
  { destruct ev.
    - exact (onTick_done_mono _ _ _ H1 Hf).
    - destruct H1 as [[H1 _]|H1]; injection H1 as -> _; exact Hf. }
  unfold firstKeystrokeEffect in H2.
  destruct (negb (hasTypedOnce st1) && (0 <? sub st1));
    injection H2 as <- _; exact Hf1.
Qed.

Lemma run_done_mono (evs : list Event) (st st' : State) (w w' : W) :
  run p evs (st, w) = inr (st', w') ->
  firstWordDone st = true -> firstWordDone st' = true.
Proof.
  revert st w. induction evs as [|ev evs IH]; intros st w; simpl.
  - intros H. now injection H as <-.
  - destruct (step p ev (st, w)) as [e|[st1 w1]] eqn:Hs; [discriminate|].
    simpl. intros Hrun Hf. eapply IH; [exact Hrun|].
    eapply step_done_mono; eauto.
Qed.

Lemma step_NotYet (ev : Event) (st st' : State) (w w' : W) :
  0 <= index st ->
  step p ev (st, w) = inr (st', w') -> NotYet st -> NotYet st'.
Proof.
  intros Hi Hs HN. destruct (step_inv p _ _ _ _ _ Hs) as ([st1 w1] & H1 & H2).
  assert (HN1 : NotYet st1).
  { unfold NotYet in *. destruct ev.
    - unfold onTick in H1. destruct (dir st) eqn:Hd.
      + destruct (JS.lengthOf (current p st)) as [e|len]; [discriminate|].
        cbv beta iota delta [JS.bind] in H1.
        destruct (sub st <? len).
        * injection H1 as <- _. simpl. auto.
        * destruct (negb (firstWordDone st) && (index st =? 0));
            injection H1 as <- _; simpl; discriminate.
      + destruct (0 <? sub st); injection H1 as <- _; simpl.
        * rewrite Hd. discriminate.
        * lia.
    - destruct H1 as [[H1 _]|H1]; injection H1 as -> _; simpl.
      + discriminate.
      + exact HN. }
  unfold firstKeystrokeEffect in H2.
  destruct (negb (hasTypedOnce st1) && (0 <? sub st1));
    injection H2 as <- _; exact HN1.
Qed.

Hypothesis nonempty : words p <> [].

Lemma run_NotYet (evs : list Event) (st st' : State) (w w' : W) :
  Bounded p st ->
  run p evs (st, w) = inr (st', w') -> NotYet st -> NotYet st'.
Proof.
  revert st w. induction evs as [|ev evs IH]; intros st w HB; simpl.
  - intros H. now injection H as <-.
  - destruct (step_Bounded p ev st w nonempty HB) as (st1 & w1 & Hs & HB1).
    rewrite Hs. simpl. intros Hrun HN. eapply IH; [exact HB1|exact Hrun|].
    eapply step_NotYet; [exact (proj1 HB)|exact Hs|exact HN].
Qed.

Lemma engine_NotYet (evs : list Event) (w : W) (st : State) (w' : W) :
  engine p w evs = inr (st, w') -> NotYet st.
Proof.
  unfold engine. rewrite (mount_defined p w nonempty).
  cbv beta iota delta [JS.bind]. intros Hrun.
  eapply run_NotYet; [exact (initial_Bounded p nonempty)|exact Hrun|].
  intros _ _. reflexivity.
Qed.

End Reports.

(** X4. The two callbacks are one-shot over every run of tick and hold
    events: each has been invoked once if its flag is set and not at all
    otherwise, so never twice; a visible character means the first
    keystroke has been reported; a reported completion means the first
    word has been turned or left; and no later event takes a report
    back. *)
Theorem callbacks_one_shot :
  forall (ws : list string) (speed hold : Q) (evs : list Event)
         (st : State) (log : list Notification),
    engine (recording ws speed hold) [] evs = inr (st, log) ->
    fired FirstKeystroke log = b2n (hasTypedOnce st)
    /\ fired FirstWordComplete log = b2n (firstWordDone st)
    /\ (fired FirstKeystroke log <= 1)%nat
    /\ (fired FirstWordComplete log <= 1)%nat
    /\ (0 < sub st -> fired FirstKeystroke log = 1%nat)
    /\ (fired FirstWordComplete log = 1%nat ->
        index st <> 0 \/ dir st = back)
    /\ (forall more st' log',
           engine (recording ws speed hold) [] (evs ++ more)
           = inr (st', log') ->
           (fired FirstKeystroke log <= fired FirstKeystroke log')%nat
           /\ (fired FirstWordComplete log
               <= fired FirstWordComplete log')%nat).
Proof.
  intros ws speed hold evs st log Hrun.
  set (p := recording ws speed hold) in *.
  pose proof (engine_ok_nonempty p _ _ _ Hrun) as Hne.
  destruct (callbacks_at_most_once ws speed hold _ _ _ Hrun)
    as ([Hk Hc] & Hk1 & Hc1).
  repeat split; try assumption.
  - intros Hsub. rewrite Hk.
    now rewrite (engine_Typed p Hne _ _ _ _ Hrun Hsub).
  - intros Hone. rewrite Hc in Hone.
    pose proof (engine_NotYet p Hne _ _ _ _ Hrun) as HN.
    destruct (Z.eq_dec (index st) 0) as [Hi|Hi]; [|now left].
    destruct (dir st) eqn:Hd; [|now right].
    rewrite (HN Hi Hd) in Hone. discriminate.
  - destruct (engine_split p _ _ _ _ H) as ([st0 log0] & H0 & Hrest).
    fold p in H0. rewrite Hrun in H0. injection H0 as <- <-.
    destruct (callbacks_at_most_once ws speed hold _ _ _ H) as ([Hk' _] & _).
    rewrite Hk, Hk'. destruct (hasTypedOnce st) eqn:Hf; simpl; [|lia].
    now rewrite (run_typed_mono p _ _ _ _ _ Hrest Hf).
  - destruct (engine_split p _ _ _ _ H) as ([st0 log0] & H0 & Hrest).
    fold p in H0. rewrite Hrun in H0. injection H0 as <- <-.
    destruct (callbacks_at_most_once ws speed hold _ _ _ H) as ([_ Hc'] & _).
    rewrite Hc, Hc'. destruct (firstWordDone st) eqn:Hf; simpl; [|lia].
    now rewrite (run_done_mono p _ _ _ _ _ Hrest Hf).
Qed.

Lemma callbacks_one_shot_witness :
  fired FirstKeystroke [FirstKeystroke; FirstWordComplete] = b2n true
  /\ fired FirstWordComplete [FirstKeystroke; FirstWordComplete] = b2n true.
Proof.
  pose proof (callbacks_one_shot ["feed"; "events"] 300 2000 (ticks 7)
                (mkState 0 2 back true true)
                [FirstKeystroke; FirstWordComplete] eq_refl) as H.
  exact (conj (proj1 H) (proj1 (proj2 H))).
Defined.

(** ** Runs of ticks, for any list of words *)

Lemma activeLength_nth (pre suf : list string) (w : string) :
  activeLength (pre ++ w :: suf) (Z.of_nat (List.length pre)) = JS.strlen w.
Proof.
  unfold activeLength, JS.rem, JS.get. rewrite length_app. simpl List.length.
  destruct (Z.eqb_spec (Z.of_nat (List.length pre + S (List.length suf))) 0);
    [lia|].
  rewrite Z.rem_small by lia.
  destruct (Z.ltb_spec (Z.of_nat (List.length pre)) 0); [lia|].
  rewrite Nat2Z.id, nth_error_app2, Nat.sub_diag by lia. reflexivity.
Qed.

Lemma spec_Past (ws : list string) (n : nat) (x : Core) :
  Past x -> Past (Nat.iter n (specTick ws) x).
Proof.
  intros HP. induction n as [|n IH]; [exact HP|].
  rewrite Nat.iter_succ.
  destruct (Nat.iter n (specTick ws) x) as [[i s] d].
  unfold Past, specTick in *. destruct IH as [Hi Hd].
  destruct d.
  - destruct Hd as [Hd|Hd]; [|discriminate].
    destruct (s <? activeLength ws i); split; auto.
  - destruct (0 <? s); split; auto; lia.
Qed.

(** The words from position [|pre|] on are passed in [cycleTicks suf]
    ticks. *)
Lemma spec_pass (suf pre : list string) :
  Nat.iter (cycleTicks suf) (specTick (pre ++ suf))
           (Z.of_nat (List.length pre), 0, fwd)
  = (Z.of_nat (List.length (pre ++ suf)), 0, fwd).
Proof.
  revert pre. induction suf as [|w suf IH]; intros pre.
  - rewrite app_nil_r. reflexivity.
  - change (cycleTicks (w :: suf))
      with (2 * String.length w + 2 + cycleTicks suf)%nat.
    rewrite Nat.add_comm, Nat.iter_add.
    rewrite (spec_word_cycle (pre ++ w :: suf) (String.length w));
      [|apply activeLength_nth].
    specialize (IH (pre ++ [w])%list).
    rewrite <- app_assoc in IH. simpl app in IH.
    rewrite length_app in IH. simpl List.length in IH.
    replace (Z.of_nat (List.length pre) + 1)
      with (Z.of_nat (List.length pre + 1)) by lia.
    exact IH.
Qed.

Lemma ticks_reports (w0 : string) (rest : list string) (speed hold : Q)
      (n : nat) (st : State) (log : list Notification) :
  engine (recording (w0 :: rest) speed hold) [] (ticks n) = inr (st, log) ->
  fired FirstWordComplete log
  = (if (n <=? String.length w0)%nat then 0 else 1)%nat
  /\ ((0 < String.length w0)%nat ->
      fired FirstKeystroke log = (if (n =? 0)%nat then 0 else 1)%nat).
Proof.
  intros Hrun.
  set (ws := w0 :: rest) in *. set (p := recording ws speed hold) in *.
  assert (Hne : words p <> []) by discriminate.
  destruct (callbacks_at_most_once ws speed hold _ _ _ Hrun) as ([Hk Hc] & _).
  destruct (engine_ticks_core p Hne n []) as (st2 & w2 & Hrun2 & HB & Hcore).
  rewrite Hrun in Hrun2. injection Hrun2 as <- <-.
  change (words p) with ws in Hcore.
  assert (A0 : activeLength ws 0 = Z.of_nat (String.length w0))
    by exact (activeLength_nth [] rest w0).
  split.
  - rewrite Hc. destruct (Nat.leb_spec n (String.length w0)) as [Hle|Hgt].
    + rewrite (spec_grow ws n 0 0) in Hcore by lia.
      injection Hcore as Hi _ Hd.
      now rewrite (engine_NotYet p Hne _ _ _ _ Hrun Hi Hd).
    + assert (HP : Past (core st)).
      { rewrite Hcore.
        replace n with (n - S (String.length w0) + S (String.length w0))%nat
          by lia.
        rewrite Nat.iter_add. apply spec_Past.
        rewrite Nat.iter_succ, (spec_grow ws _ 0 0) by lia.
        unfold specTick. rewrite A0.
        destruct (Z.ltb_spec (0 + Z.of_nat (String.length w0))
                             (Z.of_nat (String.length w0))); [lia|].
        simpl. split; [lia|now right]. }
      destruct (engine_ticks_Reported p Hne _ _ _ _ Hrun) as [->|[Hi Hd]];
        [reflexivity|].
      unfold Past, core in HP. rewrite Hi, Hd in HP.
      destruct HP as [_ [H|H]]; [lia|discriminate].
  - intros Hpos. rewrite Hk. destruct n as [|n]; simpl Nat.eqb; cbv iota.
    + unfold engine in Hrun. rewrite (mount_defined p [] Hne) in Hrun.
      simpl in Hrun. now injection Hrun as <- _.
    + change (S n) with (1 + n)%nat in Hrun.
      destruct (engine_ticks_split p 1 n [] st log Hrun)
        as (st1 & w1 & H1 & Hrest).
      destruct (engine_ticks_core p Hne 1 []) as (st1' & w1' & H1' & _ & Hc1).
      rewrite H1 in H1'. injection H1' as <- <-.
      change (words p) with ws in Hc1.
      rewrite (spec_grow ws 1 0 0) in Hc1 by lia.
      injection Hc1 as _ Hs1 _.
      assert (Hf1 : hasTypedOnce st1 = true)
        by (apply (engine_Typed p Hne _ _ _ _ H1); lia).
      now rewrite (run_typed_mono p _ _ _ _ _ Hrest Hf1).
Qed.

(** X5. Driven by ticks alone, over any list that starts with [w0]: after
    [n] ticks [onFirstWordComplete] has been invoked not at all if
    [n <= |w0|] and exactly once if [n > |w0|]; and if [w0] has a
    character, [onFirstKeystroke] has been invoked exactly once from the
    first tick on. *)
Theorem ticks_report_schedule :
  forall (w0 : string) (rest : list string) (speed hold : Q) (n : nat)
         (st : State) (log : list Notification),
    engine (recording (w0 :: rest) speed hold) [] (ticks n) = inr (st, log) ->
    fired FirstWordComplete log
    = (if (n <=? String.length w0)%nat then 0 else 1)%nat
    /\ ((0 < String.length w0)%nat ->
        fired FirstKeystroke log = (if (n =? 0)%nat then 0 else 1)%nat).
Proof.
  intros w0 rest speed hold n st log Hrun.
  exact (ticks_reports w0 rest speed hold n st log Hrun).
Qed.


Lemma ticks_report_schedule_witness :
  fired FirstWordComplete [FirstKeystroke; FirstWordComplete]
  = (if (5 <=? String.length "feed")%nat then 0 else 1)%nat
  /\ fired FirstKeystroke [FirstKeystroke; FirstWordComplete]
     = (if (5 =? 0)%nat then 0 else 1)%nat.
Proof.
  pose proof (ticks_report_schedule "feed" ["events"] 300 2000 5
                (mkState 0 4 back true true)
                [FirstKeystroke; FirstWordComplete] eq_refl) as [H1 H2].
  split; [exact H1|apply H2; simpl; lia].
Defined.

(** X6. For every non-empty list of words one pass takes [cycleTicks]
    ticks, two more than twice its length for each word.  After the pass
    the index is the length of the list, so the first word is active
    again with nothing shown; and from then on the run repeats: the state
    after [cycleTicks + n] ticks has the [sub], the direction, the active
    word and the view of the state after [n] ticks, its index being
    larger by the length of the list. *)
Theorem every_list_wraps_around :
  forall (W : Type) (p : Props W) (w : W),
    words p <> [] ->
    let P := cycleTicks (words p) in
    let L := Z.of_nat (List.length (words p)) in
    (exists st wP,
        engine p w (ticks P) = inr (st, wP)
        /\ core st = (L, 0, fwd)
        /\ current p st = current p initial
        /\ render p st = render p initial)
    /\ (forall n : nat,
           exists st wn st' wn',
             engine p w (ticks n) = inr (st, wn)
             /\ engine p w (ticks (P + n)) = inr (st', wn')
             /\ index st' = index st + L
             /\ sub st' = sub st
             /\ dir st' = dir st
             /\ current p st' = current p st
             /\ render p st' = render p st).
Proof.
  intros W p w Hne P L.
  assert (HL : 0 < L)
    by (unfold L; destruct (words p); [congruence|simpl; lia]).
  pose proof (spec_pass (words p) []) as Hfull.
  simpl app in Hfull. change (Z.of_nat (List.length [])) with 0 in Hfull.
  fold P L in Hfull.
  split.
  - destruct (engine_ticks_core p Hne P w) as (st & wP & Hrun & _ & Hcore).
    exists st, wP. split; [exact Hrun|].
    rewrite Hfull in Hcore. split; [exact Hcore|].
    injection Hcore as Hi Hs Hd.
    assert (Hcur : current p st = current p initial).
    { unfold current. rewrite Hi. fold L.
      change (index initial) with 0.
      now rewrite <- (rem_shift 0 L) by lia. }
    split; [exact Hcur|].
    unfold render. now rewrite Hcur, Hs, Hd.
  - intros n.
    destruct (engine_ticks_core p Hne n w) as (st & wn & Hrun & HB & Hcore).
    destruct (engine_ticks_core p Hne (P + n) w)
      as (st' & wn' & Hrun' & _ & Hcore').
    exists st, wn, st', wn'. split; [exact Hrun|]. split; [exact Hrun'|].
    rewrite Nat.add_comm, Nat.iter_add, Hfull in Hcore'.
    destruct (spec_iter_shift (words p) Hne n 0 0 fwd ltac:(lia))
      as (i' & s' & d' & E & Hi' & E').
    fold L in E'. rewrite Z.add_0_l in E'.
    rewrite E in Hcore. rewrite E' in Hcore'.
    injection Hcore as Hi Hs Hd. injection Hcore' as Hi2 Hs2 Hd2.
    assert (Hcur : current p st' = current p st).
    { unfold current. rewrite Hi2, Hi. fold L.
      now rewrite rem_shift by lia. }
    repeat split; try congruence.
    unfold render. rewrite Hcur, Hs2, Hd2, Hs, Hd. reflexivity.
Qed.

Lemma every_list_wraps_around_witness :
  exists st wP,
    engine pageProps [] (ticks (cycleTicks pageWords)) = inr (st, wP)
    /\ core st = (4, 0, fwd)
    /\ current pageProps st = current pageProps initial
    /\ render pageProps st = render pageProps initial.
Proof.
  refine (proj1 (every_list_wraps_around _ pageProps [] _)).
  discriminate.
Defined.

(** ** When the tick comes first *)

Section TickFirstRuns.

Context {W : Type}.
Variable p : Props W.
Hypothesis nonempty : words p <> [].
Hypothesis whole : WholeDelays p.
Hypothesis slow : (speed p <= hold p)%Q.

Lemma onTick_changes_deps (st : State) (w : W) (s1 : State * W) :
  onTick p (st, w) = inr s1 ->
  Dir_eqb (dir st) (dir (fst s1)) && (sub st =? sub (fst s1)) = false.
Proof.
  unfold onTick. intros H. destruct (dir st) eqn:Hd.
  - destruct (JS.lengthOf (current p st)) as [e|len]; [discriminate|].
    cbv beta iota delta [JS.bind] in H.
    destruct (sub st <? len).
    + injection H as <-. simpl. rewrite Hd. simpl.
      apply Z.eqb_neq. lia.
    + destruct (negb (firstWordDone st) && (index st =? 0));
        injection H as <-; reflexivity.
  - destruct (0 <? sub st); injection H as <-; simpl.
    + rewrite Hd. simpl. apply Z.eqb_neq. lia.
    + reflexivity.
Qed.

Lemma TickFirst_nextEvent (t : Timed W) :
  TickFirst t -> nextEvent t = (Tick, nextTick t).
Proof.
  unfold TickFirst, nextEvent. intros HT.
  destruct (holdAt t) as [h|]; [|reflexivity].
  specialize (HT h eq_refl). apply Qle_bool_iff in HT. now rewrite HT.
Qed.

(** A tick under the clock: the time, the next tick, the hold timeout. *)
Lemma stepT_tick_shape (t t' : Timed W) :
  TickFirst t -> stepT p t = inr t' ->
  now t' = nextTick t
  /\ Due p t'
  /\ (forall h, holdAt t' = Some h ->
                dir (eng t') = fwd
                /\ h = (nextTick t + JS.timerDelay (hold p))%Q).
Proof.
  intros HT Hstep. unfold stepT in Hstep.
  rewrite (TickFirst_nextEvent t HT) in Hstep.
  destruct (render p (eng t)) as [e|v0] eqn:Hv0; [discriminate|].
  cbv beta iota delta [JS.bind] in Hstep.
  destruct (onTick p (eng t, world t)) as [e|s1] eqn:Ht; [discriminate|].
  destruct (render p (fst s1)) as [e|v1] eqn:Hv1; [discriminate|].
  unfold JS.ok in Hstep. injection Hstep as <-.
  unfold Due. cbn [eng now nextTick holdAt].
  assert (Hd : dir (fst (firstKeystrokeEffect p s1)) = dir (fst s1)).
  { destruct s1 as [st1 w1]. unfold firstKeystrokeEffect. simpl.
    now destruct (negb (hasTypedOnce st1) && (0 <? sub st1)). }
  assert (Hv1' : delay v1 = tickDelay (dir (fst s1)) (speed p)
                 /\ holdDeps v1 = (dir (fst s1), sub (fst s1),
                                   snd (fst (holdDeps v1)), hold p)).
  { unfold render in Hv1. destruct (current p (fst s1)); [|discriminate].
    simpl in Hv1. unfold JS.ok in Hv1. injection Hv1 as <-. now simpl. }
  assert (Hv0' : fst (fst (holdDeps v0)) = (dir (eng t), sub (eng t))).
  { unfold render in Hv0. destruct (current p (eng t)); [|discriminate].
    simpl in Hv0. unfold JS.ok in Hv0. injection Hv0 as <-. now simpl. }
  destruct Hv1' as [Hdelay Hdeps]. rewrite Hd.
  split; [reflexivity|]. split.
  - rewrite <- Hdelay. now destruct (Qeq_bool (delay v0) (delay v1)).
  - intros h Hh.
    assert (Hchg : depsEqb (holdDeps v0) (holdDeps v1) = false).
    { pose proof (onTick_changes_deps _ _ _ Ht) as Hc.
      unfold depsEqb. rewrite Hdeps.
      destruct (holdDeps v0) as [[[d0 s0] l0] h0]. simpl in Hv0'.
      injection Hv0' as -> ->. now rewrite Hc. }
    rewrite Hchg in Hh.
    destruct (holdWanted v1) eqn:Hw; [|discriminate].
    injection Hh as <-. split; [|reflexivity].
    unfold holdWanted in Hw. rewrite Hdeps in Hw.
    now destruct (dir (fst s1)).
Qed.

Lemma tickDelay_whole (d : Dir) :
  (JS.timerDelay (tickDelay d (speed p)) == tickDelay d (speed p))%Q.
Proof.
  apply timerDelay_whole. destruct whole as (Hf & Hb & _).
  now destruct d.
Qed.

(** In the milliseconds of the host, too, a typing tick is due no later
    than the hold timeout armed with it. *)
Lemma tick_within_hold :
  (JS.timerDelay (tickDelay fwd (speed p)) <= JS.timerDelay (hold p))%Q.
Proof.
  rewrite (tickDelay_whole fwd).
  rewrite (timerDelay_whole (hold p) (proj2 (proj2 whole))).
  exact slow.
Qed.

Lemma stepT_TickFirst (t t' : Timed W) :
  TickFirst t -> stepT p t = inr t' -> TickFirst t'.
Proof.
  intros HT Hstep.
  destruct (stepT_tick_shape t t' HT Hstep) as (Hnow & Hdue & Hhold).
  intros h Hh. destruct (Hhold h Hh) as [Hd ->].
  unfold Due in Hdue. rewrite Hdue, Hnow, Hd.
  apply Qplus_le_r. exact tick_within_hold.
Qed.

Lemma mountT_TickFirst (w : W) (t0 : Timed W) :
  mountT p w = inr t0 -> TickFirst t0 /\ Due p t0 /\ now t0 = 0%Q.
Proof.
  unfold mountT. rewrite (mount_defined p w nonempty).
  cbv beta iota delta [JS.bind]. simpl fst.
  destruct (initial_Bounded p nonempty) as [_ (c & Hc & _)].
  rewrite (render_defined p _ c Hc). cbv beta iota delta [JS.bind JS.ok].
  intros H. injection H as <-.
  unfold TickFirst, Due. cbn [eng now nextTick holdAt delay]. simpl dir.
  repeat split.
  intros h Hh. destruct (holdWanted _); [|discriminate].
  injection Hh as <-. apply Qplus_le_r. exact tick_within_hold.
Qed.

Lemma runT_ticks (n : nat) (t : Timed W) :
  Bounded p (eng t) -> TimerSound p t -> TickFirst t ->
  exists t',
    runT p n t = inr t'
    /\ traceT p n t = ticks n
    /\ run p (ticks n) (eng t, world t) = inr (eng t', world t')
    /\ Bounded p (eng t') /\ TimerSound p t' /\ TickFirst t'.
Proof.
  revert t. induction n as [|n IH]; intros t HB HS HT.
  - exists t. simpl. auto 6.
  - destruct (stepT_refines p nonempty t HB HS) as (t1 & Hs & Hu & HB1 & HS1).
    pose proof (stepT_TickFirst t t1 HT Hs) as HT1.
    rewrite (TickFirst_nextEvent t HT) in Hu. simpl fst in Hu.
    destruct (IH t1 HB1 HS1 HT1) as (t' & Hr & Htr & Hur & HB' & HS' & HT').
    exists t'. simpl. rewrite Hs, Hu, (TickFirst_nextEvent t HT). simpl.
    rewrite Htr. auto 6.
Qed.

Lemma now_after_ticks (n : nat) (w : W) (t0 t : Timed W) :
  mountT p w = inr t0 -> runT p n t0 = inr t ->
  Due p t
  /\ TickFirst t
  /\ (now t == elapsed (words p) (speed p) n)%Q
  /\ core (eng t) = Nat.iter n (specTick (words p)) (0%Z, 0%Z, fwd).
Proof.
  intros Hm. revert t. induction n as [|n IH]; intros t Hr.
  - simpl in Hr. injection Hr as <-.
    destruct (mountT_TickFirst w t0 Hm) as (HT & HD & H0).
    destruct (mountT_sound p nonempty w) as (t0' & Hm' & He & _).
    rewrite Hm in Hm'. injection Hm' as <-.
    split; [exact HD|]. split; [exact HT|].
    split; [rewrite H0; reflexivity|now rewrite He].
  - replace (S n) with (n + 1)%nat in Hr by lia.
    rewrite runT_add in Hr.
    destruct (runT p n t0) as [e|tn] eqn:Hn; [discriminate|].
    cbv beta iota delta [JS.bind] in Hr. simpl in Hr.
    destruct (stepT p tn) as [e|t1] eqn:Hs; [discriminate|].
    simpl in Hr. injection Hr as <-.
    destruct (IH tn eq_refl) as (HD & HT & Hnow & Hcore).
    destruct (stepT_tick_shape tn t1 HT Hs) as (Hnow1 & HD1 & _).
    pose proof (stepT_TickFirst tn t1 HT Hs) as HT1.
    split; [exact HD1|]. split; [exact HT1|]. split.
    + rewrite Hnow1. unfold Due in HD. rewrite HD, Hnow.
      rewrite tickDelay_whole.
      unfold elapsed. cbn [elapsedFrom].
      rewrite <- Hcore. reflexivity.
    + destruct (mountT_sound p nonempty w) as (t0' & Hm' & He & Hw & HB & HS).
      rewrite Hm in Hm'. injection Hm' as <-.
      destruct (runT_ticks n t0 HB HS (proj1 (mountT_TickFirst w t0 Hm)))
        as (tn' & Hn' & _ & _ & HBn & _).
      rewrite Hn in Hn'. injection Hn' as <-.
      destruct (stepT_refines p nonempty tn HBn
                  ltac:(destruct (runT_refines p nonempty n t0 HB HS)
                          as (x & Hx & _ & _ & HSx);
                        rewrite Hn in Hx; injection Hx as <-; exact HSx))
        as (t1' & Hs' & Hu & _).
      rewrite Hs in Hs'. injection Hs' as <-.
      rewrite (TickFirst_nextEvent tn HT) in Hu. simpl fst in Hu.
      rewrite Nat.iter_succ, <- Hcore.
      apply (step_tick_core p (eng tn) (eng t1) (world tn) (world t1));
        [destruct HBn as [_ (c & _ & Hb)]; lia|exact Hu].
Qed.

End TickFirstRuns.

(** ** Elapsed time *)

Section Elapsed.

Variables (ws : list string) (speed : Q).

Let f := specTick ws.

Lemma elapsedFrom_add (x : Core) (a b : nat) :
  (elapsedFrom ws speed x (b + a)
   == elapsedFrom ws speed x a
      + elapsedFrom ws speed (Nat.iter a f x) b)%Q.
Proof.
  induction b as [|b IH]; simpl.
  - ring.
  - rewrite IH, Nat.iter_add. fold f. ring.
Qed.

Lemma elapsedFrom_const (d : Dir) (x : Core) (n : nat) :
  (forall j, (j < n)%nat -> snd (Nat.iter j f x) = d) ->
  (elapsedFrom ws speed x n
   == inject_Z (Z.of_nat n) * tickDelay d speed)%Q.
Proof.
  induction n as [|n IH]; intros H.
  - simpl. ring.
  - cbn [elapsedFrom]. fold f. rewrite IH by (intros j Hj; apply H; lia).
    rewrite (H n) by lia.
    rewrite Nat2Z.inj_succ. unfold Z.succ. rewrite inject_Z_plus. ring.
Qed.

(** One word takes one and a half speeds for each of its characters and
    for its turn. *)
Lemma elapsedFrom_word (m : nat) (i : Z) :
  activeLength ws i = Z.of_nat m ->
  (elapsedFrom ws speed (i, 0%Z, fwd) (2 * m + 2)
   == inject_Z (Z.of_nat (m + 1)) * speed * (3 # 2))%Q.
Proof.
  intros Hlen.
  replace (2 * m + 2)%nat with (S m + S m)%nat by lia.
  rewrite elapsedFrom_add.
  assert (Hturn : Nat.iter (S m) f (i, 0, fwd) = (i, Z.of_nat m, back)).
  { rewrite Nat.iter_succ. unfold f. rewrite spec_grow by lia.
    unfold specTick.
    destruct (Z.ltb_spec (0 + Z.of_nat m) (activeLength ws i)); [lia|].
    now rewrite Z.add_0_l. }
  rewrite Hturn.
  rewrite (elapsedFrom_const fwd), (elapsedFrom_const back).
  - replace (S m) with (m + 1)%nat by lia. simpl tickDelay. ring.
  - intros j Hj. unfold f. now rewrite spec_shrink by lia.
  - intros j Hj. unfold f. now rewrite spec_grow by lia.
Qed.

End Elapsed.

Lemma elapsedFrom_pass (speed : Q) (suf pre : list string) :
  (elapsedFrom (pre ++ suf) speed (Z.of_nat (List.length pre), 0%Z, fwd)
               (cycleTicks suf)
   == inject_Z (Z.of_nat (totalLength suf + List.length suf))
      * speed * (3 # 2))%Q.
Proof.
  revert pre. induction suf as [|w suf IH]; intros pre.
  - simpl. ring.
  - change (cycleTicks (w :: suf))
      with (2 * String.length w + 2 + cycleTicks suf)%nat.
    rewrite Nat.add_comm, elapsedFrom_add.
    rewrite (spec_word_cycle (pre ++ w :: suf) (String.length w));
      [|apply activeLength_nth].
    rewrite (elapsedFrom_word (pre ++ w :: suf) speed (String.length w));
      [|apply activeLength_nth].
    specialize (IH (pre ++ [w])%list).
    rewrite <- app_assoc in IH. simpl app in IH.
    rewrite length_app in IH. simpl List.length in IH.
    replace (Z.of_nat (List.length pre) + 1)
      with (Z.of_nat (List.length pre + 1)) by lia.
    rewrite IH.
    change (totalLength (w :: suf))
      with (String.length w + totalLength suf)%nat.
    simpl List.length.
    replace (Z.of_nat (String.length w + totalLength suf + S (List.length suf)))
      with (Z.of_nat (String.length w + 1)
            + Z.of_nat (totalLength suf + List.length suf)) by lia.
    rewrite inject_Z_plus. ring.
Qed.

Lemma tick_first_run {W : Type} (p : Props W) (w : W) (n : nat) :
  words p <> [] ->
  WholeDelays p ->
  (speed p <= hold p)%Q ->
  exists t0 t,
    mountT p w = inr t0
    /\ clock p w n = inr t
    /\ traceT p n t0 = ticks n
    /\ engine p w (ticks n) = inr (eng t, world t)
    /\ (now t == elapsed (words p) (speed p) n)%Q.
Proof.
  intros Hne Hwhole Hslow.
  destruct (mountT_sound p Hne w) as (t0 & Hm & He & Hw & HB & HS).
  destruct (mountT_TickFirst p Hne Hwhole Hslow w t0 Hm) as (HT & _).
  destruct (runT_ticks p Hne Hwhole Hslow n t0 HB HS HT)
    as (t & Hr & Htr & Hu & _).
  exists t0, t. split; [exact Hm|].
  split; [unfold clock; now rewrite Hm|].
  split; [exact Htr|]. split.
  - unfold engine. rewrite (mount_defined p w Hne). simpl.
    now rewrite He, Hw in Hu.
  - apply (now_after_ticks p Hne Hwhole Hslow n w t0 t Hm Hr).
Qed.

(** X7. When the delays [speed], [speed * 0.5] and [hold] are whole
    numbers of milliseconds and [speed <= hold], the hold timeout never
    fires: under the clock every timer event is a tick of the interval, so
    after [n] timer events the component is where [n] ticks take it, at
    the time the delays of those ticks add up to. *)
Theorem hold_never_fires_when_tick_first :
  forall (W : Type) (p : Props W) (w : W) (n : nat),
    words p <> [] ->
    WholeDelays p ->
    (speed p <= hold p)%Q ->
    exists t0 t,
      mountT p w = inr t0
      /\ clock p w n = inr t
      /\ traceT p n t0 = ticks n
      /\ engine p w (ticks n) = inr (eng t, world t)
      /\ (now t == elapsed (words p) (speed p) n)%Q.
Proof.
  intros W p w n Hne Hwhole Hslow. now apply tick_first_run.
Qed.

Lemma hold_never_fires_when_tick_first_witness :
  exists t0 t,
    mountT pageProps [] = inr t0
    /\ clock pageProps [] 25 = inr t
    /\ traceT pageProps 25 t0 = ticks 25
    /\ engine pageProps [] (ticks 25) = inr (eng t, world t)
    /\ (now t == elapsed (words pageProps) (speed pageProps) 25)%Q.
Proof.
  apply (hold_never_fires_when_tick_first _ pageProps [] 25).
  - discriminate.
  - split; [|split]; [exists 300|exists 150|exists 2000];
      (split; [lia|reflexivity]).
  - vm_compute. discriminate.
Defined.

(** X8. When the delays [speed], [speed * 0.5] and [hold] are whole
    numbers of milliseconds and [speed <= hold], [onFirstWordComplete] is
    invoked by the timer event number [|w0| + 1], which comes
    [(|w0| + 1) * speed] milliseconds after the mount: one event earlier
    it has not been invoked, from that event on it has been invoked
    once. *)
Theorem first_word_completion_time :
  forall (w0 : string) (rest : list string) (speed hold : Q),
    wholeMs speed ->
    wholeMs (speed * (1 # 2)) ->
    wholeMs hold ->
    (speed <= hold)%Q ->
    let p := recording (w0 :: rest) speed hold in
    exists tb ta,
      clock p [] (String.length w0) = inr tb
      /\ clock p [] (String.length w0 + 1) = inr ta
      /\ fired FirstWordComplete (world tb) = 0%nat
      /\ fired FirstWordComplete (world ta) = 1%nat
      /\ (now ta == inject_Z (Z.of_nat (String.length w0 + 1)) * speed)%Q
      /\ forall n, exists t,
           clock p [] (String.length w0 + 1 + n) = inr t
           /\ fired FirstWordComplete (world t) = 1%nat.
Proof.
  intros w0 rest speed hold Hws Hwb Hwh Hslow p.
  assert (Hne : words p <> []) by discriminate.
  assert (Hwhole : WholeDelays p) by (split; [|split]; assumption).
  assert (Hat : forall n, exists t,
               clock p [] n = inr t
               /\ fired FirstWordComplete (world t)
                  = (if (n <=? String.length w0)%nat then 0 else 1)%nat
               /\ (now t == elapsed (w0 :: rest) speed n)%Q).
  { intros n.
    destruct (tick_first_run p [] n Hne Hwhole Hslow)
      as (t0 & t & _ & Hc & _ & He & Hnow).
    exists t. split; [exact Hc|]. split; [|exact Hnow].
    apply (ticks_reports w0 rest speed hold n _ _ He). }
  destruct (Hat (String.length w0)) as (tb & Hb & Hfb & _).
  destruct (Hat (String.length w0 + 1)%nat) as (ta & Ha & Hfa & Hnow).
  exists tb, ta. split; [exact Hb|]. split; [exact Ha|].
  rewrite Nat.leb_refl in Hfb.
  destruct (Nat.leb_spec (String.length w0 + 1) (String.length w0));
    [lia|].
  split; [exact Hfb|]. split; [exact Hfa|]. split.
  - rewrite Hnow. unfold elapsed.
    rewrite (elapsedFrom_const (w0 :: rest) speed fwd); [reflexivity|].
    assert (A0 : activeLength (w0 :: rest) 0 = JS.strlen w0)
      by exact (activeLength_nth [] rest w0).
    intros j Hj. rewrite spec_grow; [reflexivity|].
    rewrite A0. unfold JS.strlen. lia.
  - intros n. destruct (Hat (String.length w0 + 1 + n)%nat)
      as (t & Hc & Hf & _).
    exists t. split; [exact Hc|].
    destruct (Nat.leb_spec (String.length w0 + 1 + n) (String.length w0));
      [lia|exact Hf].
Qed.

Lemma first_word_completion_time_witness :
  exists tb ta,
    clock pageProps [] (String.length "feed") = inr tb
    /\ clock pageProps [] (String.length "feed" + 1) = inr ta
    /\ fired FirstWordComplete (world tb) = 0%nat
    /\ fired FirstWordComplete (world ta) = 1%nat
    /\ (now ta == inject_Z (Z.of_nat (String.length "feed" + 1)) * 300)%Q
    /\ forall n, exists t,
         clock pageProps [] (String.length "feed" + 1 + n) = inr t
         /\ fired FirstWordComplete (world t) = 1%nat.
Proof.
  apply (first_word_completion_time "feed" ["events"; "story"; "lore"]
           300 2000).
  - exists 300. split; [lia|reflexivity].
  - exists 150. split; [lia|reflexivity].
  - exists 2000. split; [lia|reflexivity].
  - vm_compute. discriminate.
Defined.

Lemma elapsedFrom_shift (ws : list string) (speed : Q) (n : nat)
      (i s : Z) (d : Dir) :
  ws <> [] -> 0 <= i ->
  elapsedFrom ws speed (i + Z.of_nat (List.length ws), s, d) n
  = elapsedFrom ws speed (i, s, d) n.
Proof.
  intros Hne Hi. induction n as [|n IH]; [reflexivity|].
  cbn [elapsedFrom]. rewrite IH.
  destruct (spec_iter_shift ws Hne n i s d Hi) as (i' & s' & d' & E & _ & E').
  now rewrite E, E'.
Qed.

(** X9. When the delays [speed], [speed * 0.5] and [hold] are whole
    numbers of milliseconds and [speed <= hold], the timing repeats with
    the words: one pass over the list lasts one and a half speeds for
    every character and for every word, and the timer event number
    [cycleTicks + n] comes exactly that long after the event number
    [n]. *)
Theorem pass_duration :
  forall (W : Type) (p : Props W) (w : W) (n : nat),
    words p <> [] ->
    WholeDelays p ->
    (speed p <= hold p)%Q ->
    exists t t',
      clock p w n = inr t
      /\ clock p w (cycleTicks (words p) + n) = inr t'
      /\ (now t'
          == now t
             + inject_Z (Z.of_nat (totalLength (words p)
                                   + List.length (words p)))
               * speed p * (3 # 2))%Q.
Proof.
  intros W p w n Hne Hwhole Hslow.
  destruct (tick_first_run p w n Hne Hwhole Hslow)
    as (_ & t & _ & Hc & _ & _ & Hnow).
  destruct (tick_first_run p w (cycleTicks (words p) + n) Hne Hwhole Hslow)
    as (_ & t' & _ & Hc' & _ & _ & Hnow').
  exists t, t'. split; [exact Hc|]. split; [exact Hc'|].
  rewrite Hnow, Hnow'. unfold elapsed.
  rewrite Nat.add_comm, elapsedFrom_add.
  pose proof (spec_pass (words p) []) as Hfull.
  pose proof (elapsedFrom_pass (speed p) (words p) []) as Hpass.
  simpl app in Hfull, Hpass.
  change (Z.of_nat (List.length [])) with 0 in Hfull, Hpass.
  rewrite Hfull, Hpass.
  pose proof (elapsedFrom_shift (words p) (speed p) n 0 0 fwd Hne
                ltac:(lia)) as Hshift.
  rewrite Z.add_0_l in Hshift. rewrite Hshift. ring.
Qed.

Lemma pass_duration_witness :
  exists t t',
    clock pageProps [] 3 = inr t
    /\ clock pageProps [] (cycleTicks (words pageProps) + 3) = inr t'
    /\ (now t'
        == now t
           + inject_Z (Z.of_nat (totalLength (words pageProps)
                                 + List.length (words pageProps)))
             * speed pageProps * (3 # 2))%Q.
Proof.
  apply (pass_duration _ pageProps [] 3).
  - discriminate.
  - split; [|split]; [exists 300|exists 150|exists 2000];
      (split; [lia|reflexivity]).
  - vm_compute. discriminate.
Defined.

(** ** The class-name helper *)

Lemma string_app_assoc (a b c : string) :
  ((a ++ b) ++ c = a ++ (b ++ c))%string.
Proof. induction a as [|x a IH]; simpl; [reflexivity|now rewrite IH]. Qed.

Lemma string_app_nil_r (a : string) : (a ++ EmptyString)%string = a.
Proof. induction a as [|x a IH]; simpl; [reflexivity|now rewrite IH]. Qed.

Lemma concat_app (sep : string) (a b : list string) :
  a <> [] -> b <> [] ->
  String.concat sep (a ++ b)
  = (String.concat sep a ++ sep ++ String.concat sep b)%string.
Proof.
  intros Ha Hb. induction a as [|x a IH]; [congruence|].
  destruct a as [|y a].
  - simpl. destruct b; [congruence|reflexivity].
  - change (String.concat sep ((x :: y :: a) ++ b))
      with (x ++ sep ++ String.concat sep ((y :: a) ++ b))%string.
    rewrite IH by discriminate.
    change (String.concat sep (x :: y :: a))
      with (x ++ sep ++ String.concat sep (y :: a))%string.
    now rewrite !string_app_assoc.
Qed.

Lemma filter_truthy_nil (l : list ClassValue) :
  filter truthy l = [] <-> existsb truthy l = false.
Proof.
  induction l as [|v l IH]; simpl; [tauto|].
  destruct (truthy v); simpl; [split; discriminate|exact IH].
Qed.

Lemma cx_nonempty (l : list ClassValue) :
  existsb truthy l = true -> cx l <> EmptyString.
Proof.
  unfold cx. intros H.
  destruct (filter truthy l) as [|v r] eqn:E.
  - apply filter_truthy_nil in E. congruence.
  - assert (Hv : truthy v = true).
    { assert (In v (filter truthy l)) by (rewrite E; now left).
      now apply filter_In in H0. }
    destruct v as [[|c s]| | |]; try discriminate.
    simpl. destruct (map joinText r); discriminate.
Qed.

(** X10. [cx] skips what is not a class name: a [false], [null],
    [undefined] or empty string anywhere among the arguments changes
    nothing, and the result is empty exactly when no argument is a
    non-empty string. *)
Theorem cx_skips_falsy :
  (forall (a b : list ClassValue) (v : ClassValue),
      truthy v = false -> cx (a ++ v :: b) = cx (a ++ b))
  /\ (forall l : list ClassValue,
         cx l = EmptyString <-> existsb truthy l = false).
Proof.
  split.
  - intros a b v Hv. unfold cx. rewrite !filter_app. simpl.
    now rewrite Hv.
  - intros l. split.
    + intros H. destruct (existsb truthy l) eqn:E; [|reflexivity].
      now apply cx_nonempty in E.
    + intros H. apply filter_truthy_nil in H. unfold cx. now rewrite H.
Qed.

Lemma cx_skips_falsy_witness :
  cx ([ClassName "group"] ++ ClassFalse :: [ClassName "p-6"])
  = cx ([ClassName "group"] ++ [ClassName "p-6"]).
Proof.
  apply (proj1 cx_skips_falsy). reflexivity.
Defined.

(** X11. [cx] of two argument lists put together is the two results
    joined by one space when both lists have a class name, and the one
    result there is otherwise: no space is written at either end. *)
Theorem cx_app :
  forall a b : list ClassValue,
    cx (a ++ b)
    = if existsb truthy a && existsb truthy b
      then (cx a ++ " " ++ cx b)%string
      else (cx a ++ cx b)%string.
Proof.
  intros a b. unfold cx. rewrite filter_app, map_app.
  destruct (existsb truthy a) eqn:Ea.
  - destruct (existsb truthy b) eqn:Eb; simpl.
    + apply concat_app.
      * intros H. apply map_eq_nil in H. apply filter_truthy_nil in H.
        congruence.
      * intros H. apply map_eq_nil in H. apply filter_truthy_nil in H.
        congruence.
    + apply filter_truthy_nil in Eb. rewrite Eb. simpl.
      now rewrite app_nil_r, string_app_nil_r.
  - apply filter_truthy_nil in Ea. rewrite Ea. reflexivity.
Qed.

(** ** The font injector *)

Lemma find_app_some {A : Type} (f : A -> bool) (l r : list A) (x : A) :
  find f l = Some x -> find f (l ++ r) = Some x.
Proof.
  induction l as [|y l IH]; simpl; [discriminate|].
  destruct (f y); [auto|exact IH].
Qed.

Lemma find_insert {A : Type} (f : A -> bool) (l r : list A) (e : A) :
  find f (l ++ r) = None -> f e = true ->
  find f ((l ++ [e]) ++ r) = Some e.
Proof.
  intros Hn He. rewrite <- app_assoc. simpl.
  induction l as [|y l IH]; simpl in *.
  - now rewrite He.
  - destruct (f y); [discriminate|auto].
Qed.

Lemma find_insert_other {A : Type} (f : A -> bool) (l r : list A) (e : A) :
  f e = false -> find f ((l ++ [e]) ++ r) = find f (l ++ r).
Proof.
  intros He. rewrite <- app_assoc. simpl.
  induction l as [|y l IH]; simpl.
  - now rewrite He.
  - now destruct (f y).
Qed.

Lemma add_resolves (id url : string) (d : Document) :
  id <> EmptyString ->
  exists e, getElementById (add id url d) id = Some e
            /\ (getElementById d id = None -> e = stylesheetLink id url)
            /\ (forall e0, getElementById d id = Some e0 -> e = e0).
Proof.
  intros Hid. unfold add.
  destruct (getElementById d id) as [e0|] eqn:E.
  - exists e0. rewrite E. repeat split; congruence.
  - exists (stylesheetLink id url). split; [|split; congruence].
    unfold getElementById in *. destruct id as [|c r]; [congruence|].
    cbn [headChildren otherElements].
    apply find_insert; [exact E|]. exact (String.eqb_refl (String c r)).
Qed.

Lemma add_keeps (id url id' : string) (d : Document) (e : Element) :
  getElementById d id' = Some e ->
  getElementById (add id url d) id' = Some e.
Proof.
  intros H. unfold add.
  destruct (getElementById d id) as [e0|] eqn:E; [exact H|].
  unfold getElementById in *. destruct id' as [|c r]; [discriminate|].
  cbn [headChildren otherElements].
  destruct (String.eqb_spec id (String c r)) as [->|Hne].
  - congruence.
  - rewrite find_insert_other; [exact H|].
    exact (proj2 (String.eqb_neq id (String c r)) Hne).
Qed.

Lemma add_idempotent (id url url' : string) (d : Document) :
  id <> EmptyString -> add id url' (add id url d) = add id url d.
Proof.
  intros Hid. destruct (add_resolves id url d Hid) as (e & He & _).
  unfold add at 1. now rewrite He.
Qed.

Lemma add_extends (id url : string) (d : Document) :
  otherElements (add id url d) = otherElements d
  /\ exists added,
       headChildren (add id url d) = (headChildren d ++ added)%list
       /\ (added = [] \/ added = [stylesheetLink id url])
       /\ (added = [] <-> getElementById d id <> None).
Proof.
  unfold add. destruct (getElementById d id) as [e0|] eqn:E.
  - split; [reflexivity|]. exists []. rewrite app_nil_r.
    repeat split; auto; discriminate.
  - split; [reflexivity|]. exists [stylesheetLink id url].
    repeat split; auto; [discriminate|congruence].
Qed.

(** X12. The font injector is idempotent and always succeeds: run on any
    document it leaves both font IDs resolvable, and run again it changes
    nothing, so a second mount adds no second link. *)
Theorem font_injector_idempotent :
  forall d : Document,
    useHandwrittenFont (useHandwrittenFont d) = useHandwrittenFont d
    /\ getElementById (useHandwrittenFont d) patrickHandId <> None
    /\ getElementById (useHandwrittenFont d) gloriaId <> None.
Proof.
  intros d. unfold useHandwrittenFont.
  assert (Hp : patrickHandId <> EmptyString) by discriminate.
  assert (Hg : gloriaId <> EmptyString) by discriminate.
  set (d1 := add patrickHandId patrickHandUrl d).
  set (d2 := add gloriaId gloriaUrl d1).
  destruct (add_resolves patrickHandId patrickHandUrl d Hp) as (e1 & H1 & _).
  fold d1 in H1.
  destruct (add_resolves gloriaId gloriaUrl d1 Hg) as (e2 & H2 & _).
  fold d2 in H2.
  pose proof (add_keeps gloriaId gloriaUrl _ d1 e1 H1) as H1'. fold d2 in H1'.
  split; [|split; congruence].
  assert (E1 : add patrickHandId patrickHandUrl d2 = d2)
    by (unfold add; now rewrite H1').
  rewrite E1. unfold add. now rewrite H2.
Qed.

(** X13. The font injector only appends to [head]: the other elements and
    the children [head] already has stay as they are, every ID that
    resolved resolves to the same element, and what is appended is, in
    this order, the Patrick Hand link if its ID was free and the Gloria
    link if its ID was free. *)
Theorem font_injector_appends :
  forall d : Document,
    otherElements (useHandwrittenFont d) = otherElements d
    /\ headChildren (useHandwrittenFont d)
       = (headChildren d
          ++ (match getElementById d patrickHandId with
              | None => [stylesheetLink patrickHandId patrickHandUrl]
              | Some _ => []
              end)
          ++ (match getElementById d gloriaId with
              | None => [stylesheetLink gloriaId gloriaUrl]
              | Some _ => []
              end))%list
    /\ (forall id e, getElementById d id = Some e ->
                     getElementById (useHandwrittenFont d) id = Some e).
Proof.
  intros d. unfold useHandwrittenFont.
  set (d1 := add patrickHandId patrickHandUrl d).
  assert (Hg : getElementById d1 gloriaId = None
               <-> getElementById d gloriaId = None).
  { unfold d1, add. destruct (getElementById d patrickHandId); [tauto|].
    unfold getElementById. cbn [headChildren otherElements gloriaId].
    rewrite find_insert_other; [tauto|reflexivity]. }
  split; [|split].
  - unfold add. destruct (getElementById d1 gloriaId);
      cbn [otherElements]; unfold d1, add;
      now destruct (getElementById d patrickHandId).
  - unfold add at 1.
    destruct (getElementById d1 gloriaId) as [e|] eqn:E1;
      destruct (getElementById d gloriaId) as [e'|] eqn:E2;
      try (exfalso; destruct Hg as [Hg1 Hg2];
           (specialize (Hg1 eq_refl) || specialize (Hg2 eq_refl));
           discriminate);
      cbn [headChildren]; unfold d1, add;
      destruct (getElementById d patrickHandId); cbn [headChildren];
      rewrite ?app_nil_r, <- ?app_assoc; reflexivity.
  - intros id e H. now apply add_keeps, add_keeps.
Qed.

(** ** [useInterval] *)

Section UseIntervalFacts.

Context {A : Type}.
Implicit Types (h : IntervalHook A) (ev : HookEvent A).

Lemma sameDelay_trans (a b c : option Q) :
  sameDelay a b = true -> sameDelay a c = true -> sameDelay b c = true.
Proof.
  destruct a, b, c; simpl; try discriminate; auto.
  rewrite !Qeq_bool_iff. intros H1 H2. now rewrite <- H1, <- H2.
Qed.

Lemma mount_Periodic (cb : A) (delay : option Q) (at_ : Q) :
  Periodic (mountInterval cb delay at_).
Proof. destruct delay; simpl; [apply Qeq_refl|exact I]. Qed.

Lemma hookStep_Periodic h ev : Periodic h -> Periodic (hookStep h ev).
Proof.
  unfold Periodic. intros HP. destruct ev as [cb delay at_|]; simpl.
  - destruct (sameDelay (delayDep h) delay) eqn:E.
    + destruct (interval h) as [[d due_]|], (delayDep h), delay;
        simpl in *; try discriminate; try contradiction; auto.
      apply Qeq_bool_iff in E. now rewrite HP.
    + destruct delay; simpl; [apply Qeq_refl|exact I].
  - unfold fireInterval.
    destruct (interval h) as [[d due_]|] eqn:E; simpl; [|now rewrite E].
    exact HP.
Qed.

Lemma hookRun_latest (evs : list (HookEvent A)) h :
  Periodic h ->
  Periodic (fold_left hookStep evs h)
  /\ (saved (fold_left hookStep evs h), delayDep (fold_left hookStep evs h))
     = latest (saved h) (delayDep h) evs.
Proof.
  revert h. induction evs as [|ev evs IH]; intros h HP; simpl.
  - auto.
  - destruct (IH (hookStep h ev) (hookStep_Periodic h ev HP)) as [HP' E].
    split; [exact HP'|]. rewrite E.
    destruct ev as [cb delay at_|]; simpl; [reflexivity|].
    unfold fireInterval. now destruct (interval h) as [[d due_]|].
Qed.

Lemma hookRun_steady (evs : list (HookEvent A)) h :
  Forall (fun ev => match ev with
                    | Commit _ delay _ => sameDelay (delayDep h) delay = true
                    | Fire => False
                    end) evs ->
  interval (fold_left hookStep evs h) = interval h.
Proof.
  revert h. induction evs as [|ev evs IH]; intros h HF; simpl.
  - reflexivity.
  - inversion HF as [|? ? Hev Hrest]; subst.
    destruct ev as [cb delay at_|]; [|contradiction].
    rewrite IH.
    + simpl. now rewrite Hev.
    + simpl. eapply Forall_impl; [|exact Hrest].
      intros [cb' delay' at'|]; [|auto].
      now apply sameDelay_trans.
Qed.

End UseIntervalFacts.

(** X14. After any commits and firings, [useInterval] holds the callback
    of the latest commit and that is the one a firing calls; an interval
    runs exactly when the latest delay is not [null], armed with that
    delay; and commits that keep the delay leave the pending firing
    at the time it was set for, however often the component
    re-renders. *)
Theorem useInterval_latest_callback :
  forall (A : Type) (cb : A) (delay : option Q) (at_ : Q)
         (evs : list (HookEvent A)),
    let h := fold_left hookStep evs (mountInterval cb delay at_) in
    saved h = fst (latest cb delay evs)
    /\ (interval h = None <-> snd (latest cb delay evs) = None)
    /\ (forall d due_,
           interval h = Some (d, due_) ->
           exists d', snd (latest cb delay evs) = Some d' /\ (d == d')%Q)
    /\ (forall cb' h', fireInterval h = Some (cb', h') ->
                       cb' = fst (latest cb delay evs))
    /\ (Forall (fun ev => match ev with
                          | Commit _ delay' _ => sameDelay delay delay' = true
                          | Fire => False
                          end) evs ->
        interval h = armInterval delay at_).
Proof.
  intros A cb delay at_ evs h.
  destruct (hookRun_latest evs (mountInterval cb delay at_)
              (mount_Periodic cb delay at_)) as [HP E].
  fold h in HP, E. simpl in E.
  assert (Es : saved h = fst (latest cb delay evs)) by now rewrite <- E.
  assert (Ed : delayDep h = snd (latest cb delay evs)) by now rewrite <- E.
  unfold Periodic in HP. rewrite Ed in HP.
  split; [exact Es|]. split; [|split; [|split]].
  - destruct (interval h) as [[d due_]|], (snd (latest cb delay evs));
      try contradiction; split; congruence.
  - intros d due_ Hi. rewrite Hi in HP.
    destruct (snd (latest cb delay evs)) as [d'|]; [|contradiction].
    now exists d'.
  - intros cb' h' Hf. unfold fireInterval in Hf.
    destruct (interval h) as [[d due_]|]; [|discriminate].
    injection Hf as <- _. exact Es.
  - intros HF. unfold h.
    now rewrite (hookRun_steady evs (mountInterval cb delay at_)).
Qed.

Lemma useInterval_latest_callback_witness :
  interval (fold_left hookStep [Commit 7%nat (Some 300%Q) 300%Q;
                                Commit 8%nat (Some 300%Q) 600%Q]
                      (mountInterval 5%nat (Some 300%Q) 0%Q))
  = armInterval (Some 300%Q) 0%Q.
Proof.
  apply (proj2 (proj2 (proj2 (proj2
           (useInterval_latest_callback nat 5%nat (Some 300%Q) 0%Q
              [Commit 7%nat (Some 300%Q) 300%Q;
               Commit 8%nat (Some 300%Q) 600%Q]))))).
  repeat constructor.
Defined.

(** ** The page *)

Lemma typewriterProps_nonempty : words typewriterProps <> [].
Proof. discriminate. Qed.

(** An event of a typewriter of the page sets [dockLive] exactly when it
    sets [firstWordDone]. *)
Lemma typewriter_step_dock (ev : Event) (st st' : State) (live live' : bool) :
  step typewriterProps ev (st, live) = inr (st', live') ->
  live' = if firstWordDone st' && negb (firstWordDone st) then true
          else live.
Proof.
  intros Hs.
  destruct (step_inv typewriterProps _ _ _ _ _ Hs) as ([st1 l1] & H1 & H2).
  assert (E1 : l1 = (if firstWordDone st1 && negb (firstWordDone st)
                     then true else live)).
  { destruct ev.
    - unfold onTick in H1. destruct (dir st).
      + destruct (JS.lengthOf (current typewriterProps st)) as [e|len];
          [discriminate|].
        cbv beta iota delta [JS.bind] in H1.
        destruct (sub st <? len).
        * injection H1 as <- <-. simpl. now destruct (firstWordDone st).
        * destruct (firstWordDone st) eqn:Hf; simpl in H1.
          -- injection H1 as <- <-. simpl. now rewrite Hf.
          -- destruct (index st =? 0); injection H1 as <- <-; simpl;
               [reflexivity|now rewrite Hf].
      + destruct (0 <? sub st); injection H1 as <- <-; simpl;
          now destruct (firstWordDone st).
    - destruct H1 as [[H1 _]|H1]; injection H1 as -> ->; simpl;
        now destruct (firstWordDone st). }
  unfold firstKeystrokeEffect in H2.
  destruct (negb (hasTypedOnce st1) && (0 <? sub st1));
    injection H2 as <- <-; exact E1.
Qed.

Lemma dock_after_step (ev : Event) (st st' : State) (live live' other : bool) :
  step typewriterProps ev (st, live) = inr (st', live') ->
  live = firstWordDone st || other ->
  live' = firstWordDone st' || other
  /\ (live = true -> live' = true).
Proof.
  intros Hs Hl. pose proof (typewriter_step_dock _ _ _ _ _ Hs) as E.
  pose proof (step_done_mono typewriterProps _ _ _ _ _ Hs) as Hm.
  destruct (firstWordDone st) eqn:Hf.
  - rewrite (Hm eq_refl) in *. simpl in *. subst. auto.
  - destruct (firstWordDone st'); simpl in *; subst; auto.
Qed.

Lemma pageStep_Inv (pg : Page) (ev : PageEvent) :
  PageInv pg ->
  exists pg',
    pageStep pg ev = inr pg'
    /\ PageInv pg'
    /\ Phase_rank (phase pg) <= Phase_rank (phase pg')
    /\ (dockLive pg = true -> dockLive pg' = true).
Proof.
  intros HI. unfold PageInv in HI.
  destruct pg as [ph live show pend m d]. cbn [phase dockLive showProsCons
    pendingTimeouts mobileTypewriter desktopTypewriter] in HI.
  destruct ph.
  - destruct HI as (-> & -> & -> & ->).
    destruct ev as [|[|] e| |]; (eexists; split; [reflexivity|]);
      unfold PageInv; simpl; repeat split; auto; lia.
  - destruct HI as (-> & -> & -> & ->).
    destruct ev as [|[|] e| |]; (eexists; split; [reflexivity|]);
      unfold PageInv; simpl; repeat split; auto; try lia;
      exists initial; (split; [reflexivity|]);
      apply initial_Bounded, typewriterProps_nonempty.
  - destruct HI as (-> & (m0 & -> & HBm) & (d0 & -> & HBd) & Hl).
    simpl doneOf in Hl.
    destruct ev as [|[|] e| |].
    + eexists. split; [reflexivity|]. unfold PageInv. simpl.
      repeat split; eauto; lia.
    + destruct (step_Bounded typewriterProps e m0 live
                  typewriterProps_nonempty HBm) as (m1 & l1 & Hs & HB1).
      destruct (dock_after_step e m0 m1 live l1 (firstWordDone d0) Hs Hl)
        as [Hl1 Hmono].
      eexists. split; [simpl; rewrite Hs; reflexivity|].
      unfold PageInv. simpl. repeat split; eauto; lia.
    + destruct (step_Bounded typewriterProps e d0 live
                  typewriterProps_nonempty HBd) as (d1 & l1 & Hs & HB1).
      rewrite orb_comm in Hl.
      destruct (dock_after_step e d0 d1 live l1 (firstWordDone m0) Hs Hl)
        as [Hl1 Hmono].
      eexists. split; [simpl; rewrite Hs; reflexivity|].
      unfold PageInv. simpl. rewrite orb_comm.
      repeat split; eauto; lia.
    + eexists. split; [reflexivity|]. unfold PageInv. simpl.
      repeat split; eauto; lia.
    + eexists. split; [reflexivity|]. unfold PageInv. simpl.
      repeat split; eauto; lia.
Qed.

Lemma pageRun_Inv (evs : list PageEvent) (pg : Page) :
  PageInv pg ->
  exists pg',
    pageRun evs pg = inr pg'
    /\ PageInv pg'
    /\ Phase_rank (phase pg) <= Phase_rank (phase pg')
    /\ (dockLive pg = true -> dockLive pg' = true).
Proof.
  revert pg. induction evs as [|ev evs IH]; intros pg HI.
  - exists pg. simpl. repeat split; auto; lia.
  - destruct (pageStep_Inv pg ev HI) as (pg1 & Hs & HI1 & Hr1 & Hd1).
    destruct (IH pg1 HI1) as (pg' & Hr & HI' & Hr' & Hd').
    exists pg'. simpl. rewrite Hs. simpl.
    repeat split; auto; lia.
Qed.

Lemma pageRun_app (a b : list PageEvent) (pg : Page) :
  pageRun (a ++ b) pg = (pg' <- pageRun a pg ;; pageRun b pg').
Proof.
  revert pg. induction a as [|ev a IH]; intros pg; simpl.
  - reflexivity.
  - destruct (pageStep pg ev) as [e|pg1]; simpl; [reflexivity|apply IH].
Qed.

Lemma pageMount_Inv : PageInv pageMount.
Proof. unfold PageInv. simpl. auto. Qed.

Lemma renderPage_Inv (pg : Page) :
  PageInv pg ->
  exists v,
    renderPage pg = inr v
    /\ demosRendered v = dockLive pg
    /\ modalShown v = showProsCons pg.
Proof.
  intros HI. unfold PageInv in HI. unfold renderPage.
  destruct (phase pg) eqn:Hp.
  - eexists. split; [reflexivity|]. simpl. split; reflexivity.
  - eexists. split; [reflexivity|]. simpl. split; reflexivity.
  - destruct HI as (_ & (m & -> & _ & cm & Hcm & _)
                      & (d & -> & _ & cd & Hcd & _) & _).
    simpl. rewrite (render_defined typewriterProps m cm Hcm).
    cbv beta iota delta [JS.bind JS.ok].
    rewrite (render_defined typewriterProps d cd Hcd).
    cbv beta iota delta [JS.bind JS.ok].
    eexists. split; [reflexivity|]. simpl. split; reflexivity.
Qed.

(** X15. Whatever timeouts, typewriter timers and clicks the page sees,
    in whatever order: no handler and no render throws; the phone demos
    are rendered exactly when one of the two typewriters has set
    [firstWordDone], which happens in the typing phase only; and later
    events neither take the phase back nor remove the demos again, so that
    the exit animation of the demos never runs. *)
Theorem page_shows_demo_after_first_word :
  forall evs : list PageEvent,
    exists pg v,
      pageRun evs pageMount = inr pg
      /\ renderPage pg = inr v
      /\ (demosRendered v = true -> phase pg = typing)
      /\ demosRendered v
         = doneOf (mobileTypewriter pg) || doneOf (desktopTypewriter pg)
      /\ (forall more : list PageEvent,
             exists pg' v',
               pageRun (evs ++ more) pageMount = inr pg'
               /\ renderPage pg' = inr v'
               /\ Phase_rank (phase pg) <= Phase_rank (phase pg')
               /\ (demosRendered v = true -> demosRendered v' = true)).
Proof.
  intros evs.
  destruct (pageRun_Inv evs pageMount pageMount_Inv)
    as (pg & Hrun & HI & _ & _).
  destruct (renderPage_Inv pg HI) as (v & Hv & Hdemo & Hmodal).
  exists pg, v. split; [exact Hrun|]. split; [exact Hv|].
  assert (Hlive : dockLive pg
                  = doneOf (mobileTypewriter pg)
                    || doneOf (desktopTypewriter pg)).
  { unfold PageInv in HI. destruct (phase pg).
    - destruct HI as (_ & -> & -> & ->). reflexivity.
    - destruct HI as (_ & -> & -> & ->). reflexivity.
    - now destruct HI as (_ & _ & _ & ->). }
  split; [|split].
  - rewrite Hdemo. intros Hl. unfold PageInv in HI.
    destruct (phase pg); [| |reflexivity];
      destruct HI as (_ & _ & _ & Hf); congruence.
  - now rewrite Hdemo.
  - intros more. rewrite pageRun_app, Hrun. cbv beta iota delta [JS.bind].
    destruct (pageRun_Inv more pg HI) as (pg' & Hrun' & HI' & Hrank & Hmono).
    destruct (renderPage_Inv pg' HI') as (v' & Hv' & Hdemo' & _).
    exists pg', v'. split; [exact Hrun'|]. split; [exact Hv'|].
    split; [exact Hrank|]. rewrite Hdemo, Hdemo'. exact Hmono.
Qed.

(** ** The modal *)

Lemma pageStep_show (b : bool) (pg : Page) (ev : PageEvent) :
  isClick ev = false ->
  pageStep (setShowProsCons b pg) ev
  = (pg' <- pageStep pg ev ;; JS.ok (setShowProsCons b pg')).
Proof.
  intros Hev. destruct pg as [ph live show pend m d].
  destruct ev as [|[|] e| |]; try discriminate; simpl.
  - destruct pend as [|u rest]; [reflexivity|].
    unfold commitPhase, setShowProsCons. simpl.
    destruct (sets u); try reflexivity.
    destruct (enterTypewriter m live) as [x|m1]; [reflexivity|]. simpl.
    destruct (enterTypewriter d (snd m1)) as [x|d1]; reflexivity.
  - destruct m as [m0|]; [|reflexivity].
    destruct (step typewriterProps e (m0, live)); reflexivity.
  - destruct d as [d0|]; [|reflexivity].
    destruct (step typewriterProps e (d0, live)); reflexivity.
Qed.

Lemma pageRun_show (evs : list PageEvent) (b : bool) (pg : Page) :
  pageRun evs (setShowProsCons b pg)
  = (pg0 <- pageRun (filter (fun ev => negb (isClick ev)) evs) pg ;;
     JS.ok (setShowProsCons (lastClick evs b) pg0)).
Proof.
  revert b pg. induction evs as [|ev evs IH]; intros b pg.
  - reflexivity.
  - destruct (isClick ev) eqn:Hc.
    + destruct ev; try discriminate; simpl.
      * exact (IH true pg).
      * exact (IH false pg).
    + cbn [pageRun filter]. rewrite Hc. cbn [negb pageRun].
      rewrite (pageStep_show b pg ev Hc).
      destruct (pageStep pg ev) as [e|pg1]; [reflexivity|].
      cbv beta iota delta [JS.bind JS.ok]. rewrite IH.
      now destruct ev.
Qed.

(** X16. The modal is a cell of its own: it is shown exactly when the
    last click was on the button rather than on the backdrop or the close
    button, and the clicks change nothing else: without them the page goes
    through the same phases, typewriter states and demos. *)
Theorem modal_follows_last_click :
  forall evs : list PageEvent,
    exists pg pg0 v,
      pageRun evs pageMount = inr pg
      /\ pageRun (filter (fun ev => negb (isClick ev)) evs) pageMount
         = inr pg0
      /\ pg = setShowProsCons (lastClick evs false) pg0
      /\ showProsCons pg0 = false
      /\ renderPage pg = inr v
      /\ modalShown v = lastClick evs false.
Proof.
  intros evs.
  pose proof (pageRun_show evs false pageMount) as H.
  change (setShowProsCons false pageMount) with pageMount in H.
  destruct (pageRun_Inv (filter (fun ev => negb (isClick ev)) evs)
              pageMount pageMount_Inv) as (pg0 & H0 & HI0 & _).
  rewrite H0 in H. cbv beta iota delta [JS.bind JS.ok] in H.
  destruct (pageRun_Inv evs pageMount pageMount_Inv) as (pg & Hr & HI & _).
  destruct (renderPage_Inv pg HI) as (v & Hv & _ & Hmodal).
  exists pg, pg0, v. split; [exact Hr|]. split; [exact H0|].
  assert (E : pg = setShowProsCons (lastClick evs false) pg0) by congruence.
  split; [exact E|]. split.
  - pose proof (pageRun_show (filter (fun ev => negb (isClick ev)) evs)
                  false pageMount) as H1.
    change (setShowProsCons false pageMount) with pageMount in H1.
    assert (Hnc : forall (l : list PageEvent) (b : bool),
               Forall (fun ev => isClick ev = false) l -> lastClick l b = b).
    { induction l as [|x l IHl]; intros b HF; [reflexivity|].
      inversion HF; subst. destruct x; try discriminate; simpl; auto. }
    assert (HF : Forall (fun ev => isClick ev = false)
                        (filter (fun ev => negb (isClick ev)) evs)).
    { apply Forall_forall. intros x Hx. apply filter_In in Hx.
      destruct Hx as [_ Hx]. now destruct (isClick x). }
    rewrite (Hnc _ false HF) in H1.
    assert (Hff : filter (fun ev => negb (isClick ev))
                    (filter (fun ev => negb (isClick ev)) evs)
                  = filter (fun ev => negb (isClick ev)) evs).
    { clear. induction evs as [|x l IH]; [reflexivity|]. simpl.
      destruct (negb (isClick x)) eqn:E; simpl; rewrite ?E, IH; reflexivity. }
    rewrite Hff, H0 in H1. cbv beta iota delta [JS.bind JS.ok] in H1.
    injection H1 as H1. rewrite H1. reflexivity.
  - split; [exact Hv|]. rewrite Hmodal, E. reflexivity.
Qed.

(** ** One character at a time *)

(** X17. An event changes what is shown by at most one character, and a
    word is only left once it is fully erased: [sub] moves by at most
    one; the index stays or grows by one, and it grows only from an empty
    text to an empty text, turning the direction to [fwd]; a change of
    direction leaves [sub] alone, and a hold timeout changes neither
    [sub] nor the index. *)
Theorem one_character_per_event :
  forall (W : Type) (p : Props W) (ev : Event) (st st' : State) (w w' : W),
    0 <= sub st ->
    step p ev (st, w) = inr (st', w') ->
    -1 <= sub st' - sub st <= 1
    /\ (index st' = index st
        \/ (index st' = index st + 1
            /\ sub st = 0 /\ sub st' = 0 /\ dir st' = fwd))
    /\ (dir st' <> dir st -> sub st' = sub st)
    /\ (ev = Hold -> index st' = index st /\ sub st' = sub st).
Proof.
  intros W p ev st st' w w' Hsub Hs.
  destruct (step_inv p _ _ _ _ _ Hs) as (s1 & H1 & H2).
  pose proof (effect_core p s1) as Hc. rewrite H2 in Hc. simpl fst in Hc.
  destruct ev.
  - rewrite (onTick_core p st w s1 Hsub H1) in Hc.
    unfold core, specTick in Hc.
    destruct (dir st) eqn:Hd.
    + destruct (sub st <? activeLength (words p) (index st));
        injection Hc as -> -> ->; repeat split; auto; try lia;
        try discriminate; congruence.
    + destruct (Z.ltb_spec 0 (sub st));
        injection Hc as -> -> ->; repeat split; auto; try lia;
        try discriminate; try congruence.
      right. repeat split; lia.
  - assert (Hc1 : core (fst s1) = core st
                  \/ core (fst s1) = (index st, sub st, back)).
    { destruct H1 as [[-> _]| ->]; [right|left]; reflexivity. }
    unfold core in *.
    destruct Hc1 as [Hc1|Hc1]; rewrite Hc1 in Hc;
      injection Hc as -> -> ->; repeat split; auto; lia.
Qed.

Lemma one_character_per_event_witness :
  -1 <= 3 - 4 <= 1
  /\ (0 = 0 \/ (0 = 0 + 1 /\ 4 = 0 /\ 3 = 0 /\ back = fwd))
  /\ (back <> back -> 3 = 4)
  /\ (Tick = Hold -> 0 = 0 /\ 3 = 4).
Proof.
  apply (one_character_per_event _ pageProps Tick
           (mkState 0 4 back true true) (mkState 0 3 back true true)
           [FirstKeystroke; FirstWordComplete]
           [FirstKeystroke; FirstWordComplete]).
  - simpl. lia.
  - reflexivity.
Defined.

(** ** When the hold timeout comes first *)

Section HoldFirst.

Context {W : Type}.
Variable p : Props W.
Hypothesis nonempty : words p <> [].

Lemma holdArmed_core (st : State) (c : string) :
  current p st = Some c ->
  holdArmed p st
  = inr (match dir st with fwd => sub st =? JS.strlen c | back => false end).
Proof.
  intros Hc. unfold holdArmed. now rewrite (render_defined p st c Hc).
Qed.

Lemma traceT_snoc (k : nat) (t0 t : Timed W) :
  runT p k t0 = inr t ->
  traceT p (k + 1) t0 = (traceT p k t0 ++ [fst (nextEvent t)])%list.
Proof.
  revert t0. induction k as [|k IH]; intros t0; simpl.
  - intros H. injection H as <-. now destruct (stepT p t0).
  - destruct (stepT p t0) as [e|t1]; [discriminate|]. simpl.
    intros H. now rewrite (IH t1 H).
Qed.

Lemma stepT_tick_TimerDue (t t' : Timed W) :
  TickFirst t -> stepT p t = inr t' -> TimerDue p t'.
Proof.
  intros HT Hstep Harmed. unfold stepT in Hstep.
  rewrite (TickFirst_nextEvent t HT) in Hstep.
  destruct (render p (eng t)) as [e|v0] eqn:Hv0; [discriminate|].
  cbv beta iota delta [JS.bind] in Hstep.
  destruct (onTick p (eng t, world t)) as [e|s1] eqn:Ht; [discriminate|].
  destruct (render p (fst s1)) as [e|v1] eqn:Hv1; [discriminate|].
  unfold JS.ok in Hstep. injection Hstep as <-.
  cbn [eng now holdAt] in *.
  unfold holdArmed in Harmed. rewrite render_effect, Hv1 in Harmed.
  cbv beta iota delta [JS.bind JS.ok] in Harmed. injection Harmed as Hw.
  assert (Hchg : depsEqb (holdDeps v0) (holdDeps v1) = false).
  { pose proof (onTick_changes_deps p _ _ _ Ht) as Hc.
    unfold render in Hv0, Hv1.
    destruct (current p (eng t)); [|discriminate].
    destruct (current p (fst s1)); [|discriminate].
    simpl in Hv0, Hv1. unfold JS.ok in Hv0, Hv1.
    injection Hv0 as <-. injection Hv1 as <-.
    unfold depsEqb. cbn [holdDeps]. now rewrite Hc. }
  now rewrite Hchg, Hw.
Qed.

(** While the first word is typed no hold timeout is pending, so every
    event is a tick; with its last letter the timeout is armed. *)
Lemma grow_under_clock (k : nat) (w : W) (t0 : Timed W) :
  mountT p w = inr t0 ->
  Z.of_nat k <= activeLength (words p) 0 ->
  exists t,
    runT p k t0 = inr t
    /\ traceT p k t0 = ticks k
    /\ core (eng t) = (0, Z.of_nat k, fwd)
    /\ Bounded p (eng t) /\ TimerSound p t /\ Due p t /\ TimerDue p t
    /\ run p (ticks k) (initial, w) = inr (eng t, world t).
Proof.
  intros Hm. induction k as [|k IH]; intros Hk.
  - exists t0. destruct (mountT_sound p nonempty w)
      as (t0' & Hm' & He & Hw & HB & HS).
    rewrite Hm in Hm'. injection Hm' as <-.
    split; [reflexivity|]. split; [reflexivity|].
    split; [now rewrite He|]. split; [exact HB|]. split; [exact HS|].
    assert (Hshape : Due p t0 /\ TimerDue p t0).
    { clear HS HB. unfold mountT in Hm.
      rewrite (mount_defined p w nonempty) in Hm.
      cbv beta iota delta [JS.bind] in Hm. simpl fst in Hm.
      destruct (initial_Bounded p nonempty) as [_ (c & Hc & _)].
      rewrite (render_defined p _ c Hc) in Hm.
      cbv beta iota delta [JS.bind JS.ok] in Hm. injection Hm as <-.
      unfold Due, TimerDue. cbn [eng now nextTick holdAt delay].
      split; [reflexivity|].
      unfold holdArmed. rewrite (render_defined p _ c Hc).
      cbv beta iota delta [JS.bind JS.ok]. intros Ha.
      match goal with
      | |- (if ?b then _ else _) = _ =>
          assert (Hwant : b = true) by (injection Ha; intros E; exact E);
          now rewrite Hwant
      end. }
    split; [exact (proj1 Hshape)|]. split; [exact (proj2 Hshape)|].
    simpl. now rewrite He, Hw.
  - destruct (IH ltac:(lia))
      as (t & Hr & Htr & Hcore & HB & HS & HD & HTD & Hrun).
    injection Hcore as Hi Hsub Hd.
    pose proof HB as [_ (c & Hc & _)].
    pose proof (activeLength_current p _ c Hc) as Hlen. rewrite Hi in Hlen.
    assert (Hnone : holdAt t = None).
    { destruct (holdAt t) as [h|] eqn:Hh; [|reflexivity].
      pose proof (HS h Hh) as Ha.
      rewrite (holdArmed_core _ c Hc), Hd in Ha. injection Ha as Ha.
      apply Z.eqb_eq in Ha. lia. }
    assert (HT : TickFirst t) by (intros h Hh; congruence).
    destruct (stepT_refines p nonempty t HB HS)
      as (t1 & Hs & Hu & HB1 & HS1).
    rewrite (TickFirst_nextEvent t HT) in Hu. simpl fst in Hu.
    exists t1.
    replace (S k) with (k + 1)%nat by lia.
    split; [rewrite runT_add, Hr; simpl; now rewrite Hs|].
    split.
    { rewrite (traceT_snoc k t0 t Hr), Htr, (TickFirst_nextEvent t HT).
      unfold ticks. now rewrite repeat_app. }
    split.
    { assert (H0 : 0 <= sub (eng t)) by lia.
      rewrite (step_tick_core p _ _ _ _ H0 Hu).
      unfold core, specTick. rewrite Hi, Hsub, Hd.
      destruct (Z.ltb_spec (Z.of_nat k) (activeLength (words p) 0)); [|lia].
      do 2 f_equal. lia. }
    split; [exact HB1|]. split; [exact HS1|].
    split; [exact (proj1 (proj2 (stepT_tick_shape p t t1 HT Hs)))|].
    split; [exact (stepT_tick_TimerDue t t1 HT Hs)|].
    unfold ticks. rewrite repeat_app. fold (ticks k). rewrite run_app, Hrun.
    simpl. now rewrite Hu.
Qed.

End HoldFirst.

(** X18. When [speed] and [hold] are whole numbers of milliseconds and
    [hold < speed], the completion of the first word is never reported:
    the events of the first word are its ticks and then the hold timeout,
    which fires [hold] after the last letter and turns the direction
    without a report; after every number of timer events
    [onFirstWordComplete] has not been invoked and [firstWordDone] is
    false. *)
Theorem completion_never_reported_when_hold_first :
  forall (w0 : string) (rest : list string) (speed hold : Q),
    wholeMs speed ->
    wholeMs hold ->
    (hold < speed)%Q ->
    let p := recording (w0 :: rest) speed hold in
    let m := String.length w0 in
    (exists t0 tm th,
        mountT p [] = inr t0
        /\ clock p [] m = inr tm
        /\ clock p [] (m + 1) = inr th
        /\ traceT p (m + 1) t0 = (ticks m ++ [Hold])%list
        /\ core (eng tm) = (0, Z.of_nat m, fwd)
        /\ core (eng th) = (0, Z.of_nat m, back)
        /\ (now th == now tm + hold)%Q)
    /\ (forall n : nat,
           exists t,
             clock p [] n = inr t
             /\ firstWordDone (eng t) = false
             /\ fired FirstWordComplete (world t) = 0%nat).
Proof.
  intros w0 rest speed hold Hws Hwh Hfast p m.
  assert (Hne : words p <> []) by discriminate.
  pose proof (timerDelay_whole speed Hws) as Hspeed.
  pose proof (timerDelay_whole hold Hwh) as Hhold.
  assert (A0 : activeLength (words p) 0 = Z.of_nat m)
    by exact (activeLength_nth [] rest w0).
  destruct (mountT_sound p Hne []) as (t0 & Hm & _).
  assert (Hclock : forall k, clock p [] k = runT p k t0)
    by (intros k; unfold clock; now rewrite Hm).
  assert (Hgrow : forall k, (k <= m)%nat ->
             exists t, runT p k t0 = inr t
                       /\ core (eng t) = (0, Z.of_nat k, fwd)
                       /\ firstWordDone (eng t) = false
                       /\ Counted (eng t) (world t)).
  { intros k Hk.
    destruct (grow_under_clock p Hne k [] t0 Hm ltac:(rewrite A0; lia))
      as (t & Hr & _ & Hcore & _ & _ & _ & _ & Hrun).
    exists t. split; [exact Hr|]. split; [exact Hcore|].
    assert (He : engine p [] (ticks k) = inr (eng t, world t)).
    { unfold engine. rewrite (mount_defined p [] Hne). exact Hrun. }
    injection Hcore as Hi _ Hd.
    split; [exact (engine_NotYet p Hne _ _ _ _ He Hi Hd)|].
    exact (proj1 (callbacks_at_most_once _ speed hold _ _ _ He)). }
  destruct (grow_under_clock p Hne m [] t0 Hm ltac:(rewrite A0; lia))
    as (tm & Hr & Htr & Hcore & HB & HS & HD & HTD & Hrun).
  destruct (Hgrow m (Nat.le_refl m)) as (tm' & Hr' & _ & Hdone & HC).
  rewrite Hr in Hr'. injection Hr' as <-.
  pose proof Hcore as Hcore'. injection Hcore' as Hi Hsub Hd.
  pose proof HB as [_ (c & Hc & _)].
  pose proof (activeLength_current p _ c Hc) as Hlen.
  rewrite Hi, A0 in Hlen.
  assert (Hh : holdAt tm = Some (now tm + JS.timerDelay hold)%Q).
  { apply HTD. rewrite (holdArmed_core p _ c Hc), Hd, Hsub, <- Hlen.
    now rewrite Z.eqb_refl. }
  assert (Hnle : ~ (nextTick tm <= now tm + JS.timerDelay hold)%Q).
  { unfold Due in HD. rewrite HD, Hd. intros H.
    apply Qplus_le_r in H.
    change (JS.timerDelay speed <= JS.timerDelay hold)%Q in H.
    rewrite Hspeed, Hhold in H. now apply Qlt_not_le in Hfast. }
  destruct (hold_before_tick p tm c _ Hc Hh Hnle)
    as (th & Hs & Hcoreh & Hnowh & _ & Hdoneh & _).
  destruct (stepT_refines p Hne tm HB HS) as (th' & Hs' & Hu & HBh & HSh).
  rewrite Hs in Hs'. injection Hs' as <-.
  assert (Hnext : nextEvent tm = (Hold, (now tm + JS.timerDelay hold)%Q)).
  { unfold nextEvent. rewrite Hh.
    destruct (Qle_bool (nextTick tm) (now tm + JS.timerDelay hold)) eqn:E;
      [apply Qle_bool_iff in E; contradiction|reflexivity]. }
  rewrite Hnext in Hu. simpl fst in Hu.
  assert (Hrh : runT p (m + 1) t0 = inr th).
  { rewrite runT_add, Hr. simpl. now rewrite Hs. }
  assert (HLh : Lost (eng th)).
  { injection Hcoreh as Hih _ Hdh.
    repeat split; [congruence|lia|now right]. }
  assert (HCh : Counted (eng th) (world th)).
  { apply (step_Counted (w0 :: rest) speed hold Hold _ _ _ _ Hu HC). }
  split.
  - exists t0, tm, th. rewrite !Hclock.
    split; [exact Hm|]. split; [exact Hr|]. split; [exact Hrh|].
    split; [now rewrite (traceT_snoc p m t0 tm Hr), Htr, Hnext|].
    split; [exact Hcore|]. split; [|now rewrite Hnowh, Hhold].
    now rewrite Hcoreh, Hi, Hsub.
  - intros n. rewrite Hclock.
    destruct (Nat.leb_spec n m) as [Hle|Hgt].
    + destruct (Hgrow n Hle) as (t & Hrt & _ & Hf & [_ Hcount]).
      exists t. split; [exact Hrt|]. split; [exact Hf|].
      now rewrite Hcount, Hf.
    + replace n with (m + 1 + (n - (m + 1)))%nat by lia.
      destruct (runT_refines p Hne (n - (m + 1)) th HBh HSh)
        as (t & Hrt & Hut & _).
      exists t. rewrite runT_add, Hrh. split; [exact Hrt|].
      exact (lost_completion_never_fires (w0 :: rest) speed hold
               _ _ _ _ _ HLh HCh Hut).
Qed.

Lemma completion_never_reported_when_hold_first_witness :
  exists t0 tm th,
    mountT (recording ["feed"; "events"] 300 100) [] = inr t0
    /\ clock (recording ["feed"; "events"] 300 100) [] 4 = inr tm
    /\ clock (recording ["feed"; "events"] 300 100) [] (4 + 1) = inr th
    /\ traceT (recording ["feed"; "events"] 300 100) (4 + 1) t0
       = (ticks 4 ++ [Hold])%list
    /\ core (eng tm) = (0, Z.of_nat 4, fwd)
    /\ core (eng th) = (0, Z.of_nat 4, back)
    /\ (now th == now tm + 100)%Q.
Proof.
  refine (proj1 (completion_never_reported_when_hold_first
                   "feed" ["events"] 300 100 _ _ _)).
  - exists 300. split; [lia|reflexivity].
  - exists 100. split; [lia|reflexivity].
  - reflexivity.
Defined.

Lemma font_injector_appends_witness :
  getElementById
    (useHandwrittenFont
       (mkDocument [mkElement "meta" "viewport" EmptyString EmptyString] []))
    "viewport"
  = Some (mkElement "meta" "viewport" EmptyString EmptyString).
Proof.
  apply (proj2 (proj2 (font_injector_appends
           (mkDocument [mkElement "meta" "viewport" EmptyString EmptyString]
                       [])))).
  reflexivity.
Defined.

Lemma page_shows_demo_after_first_word_witness :
  exists pg v,
    pageRun (TimeoutFires :: TimeoutFires
             :: repeat (TypewriterEvent Desktop Tick) 5)
            pageMount = inr pg
    /\ renderPage pg = inr v
    /\ demosRendered v = true
    /\ phase pg = typing
    /\ doneOf (mobileTypewriter pg) = false
    /\ doneOf (desktopTypewriter pg) = true.
Proof.
  destruct (page_shows_demo_after_first_word
              (TimeoutFires :: TimeoutFires
               :: repeat (TypewriterEvent Desktop Tick) 5))
    as (pg & v & H1 & H2 & H3 & H4 & _).
  exists pg, v. split; [exact H1|]. split; [exact H2|].
  assert (Hpg : doneOf (mobileTypewriter pg) = false
                /\ doneOf (desktopTypewriter pg) = true).
  { vm_compute in H1. injection H1 as <-. split; reflexivity. }
  destruct Hpg as [Hm Hd]. rewrite Hm, Hd in H4. simpl in H4.
  split; [exact H4|]. split; [exact (H3 H4)|]. split; [exact Hm|exact Hd].
Defined.
